(** * Sidechain objects, their script framing and the deposit-address codec

    A shallow embedding of [src/sidechain.cpp]: the deposit-address
    generator and parser, the tag-dispatched (de)serialisation of
    sidechain objects and the selection helper used when withdrawal
    bundles are built.

    Integer widths follow the LP64 data model of the 64-bit Unix targets:
    [unsigned int] has 32 bits, [unsigned long] and [size_t] have 64.
    Every conversion between them is written out with its wrap-around. *)

From Stdlib Require Import ZArith Lia List Bool.
From Stdlib Require Import Strings.Byte Strings.String.
From stdpp Require Import base list.
Import ListNotations.

Local Open Scope Z_scope.

(** ** Bytes and characters *)

(** [char], [unsigned char] and the elements of [std::string] are all one
    byte wide; [uc] is the value of a byte read as [unsigned char]. *)
Definition uc (b : byte) : Z := Z.of_N (Byte.to_N b).

Definition chr (z : Z) : byte :=
  match Byte.of_N (Z.to_N (z mod 256)) with
  | Some b => b
  | None => x00
  end.

Definition byte_eqb (a b : byte) : bool := uc a =? uc b.

Abbreviation std_string := (list byte).
Abbreviation bytes := (list byte).

(** A string literal as a [std::string]. *)
Definition lit (s : string) : std_string := list_byte_of_string s.

(** [size()] of a string or vector, a [size_t]. *)
Definition size {A} (s : list A) : Z := Z.of_nat (length s).

Definition empty {A} (s : list A) : bool :=
  match s with [] => true | _ => false end.

Fixpoint string_eqb (a b : std_string) : bool :=
  match a, b with
  | [], [] => true
  | x :: a', y :: b' => byte_eqb x y && string_eqb a' b'
  | _, _ => false
  end.

(** ** Machine integers (LP64) *)

Definition UINT_MOD : Z := 2 ^ 32.
Definition ULONG_MOD : Z := 2 ^ 64.
Definition ULONG_MAX : Z := 2 ^ 64 - 1.

(** Conversion to [unsigned int], and to [size_t] / [unsigned long]. *)
Definition to_uint (z : Z) : Z := z mod UINT_MOD.
Definition to_size_t (z : Z) : Z := z mod ULONG_MOD.

(** [std::string::npos], the largest [size_t]. *)
Definition npos : Z := ULONG_MAX.

(** ** Outcomes of a call *)

Inductive exn := out_of_range | invalid_argument | ios_failure.

(** A call returns, throws, or has no defined behaviour (a downcast to a
    type the object does not have). *)
Inductive outcome (A : Type) :=
| Ret (a : A)
| Throw (e : exn)
| Undefined.
Arguments Ret {A} a.
Arguments Throw {A} e.
Arguments Undefined {A}.

Definition bind {A B} (m : outcome A) (k : A -> outcome B) : outcome B :=
  match m with
  | Ret a => k a
  | Throw e => Throw e
  | Undefined => Undefined
  end.

Notation "'do' x <- m 'in' k" := (bind m (fun x => k))
  (at level 10, x name, m at level 100, k at level 200,
   format "'[v' 'do'  x  <-  m  'in' '/' k ']'").
Notation "'do' ' p <- m 'in' k" :=
  (bind m (fun x => match x with p => k end))
  (at level 10, p pattern, m at level 100, k at level 200,
   format "'[v' 'do'  ' p  <-  m  'in' '/' k ']'").

(** ** SHA-256 *)

(** Modelled from the spec: the hashing class [CSHA256] of the crypto
    library is not among the sources; the spec names the function it
    computes, SHA-256, which is embedded here after FIPS 180-4. *)
Module SHA256.

Definition w32 (x : Z) : Z := x mod 2 ^ 32.
Definition add32 (x y : Z) : Z := w32 (x + y).
Definition rotr (n x : Z) : Z :=
  Z.lor (Z.shiftr x n) (w32 (Z.shiftl x (32 - n))).
Definition not32 (x : Z) : Z := Z.lxor x (2 ^ 32 - 1).

Definition Ch (x y z : Z) : Z := Z.lxor (Z.land x y) (Z.land (not32 x) z).
Definition Maj (x y z : Z) : Z :=
  Z.lxor (Z.lxor (Z.land x y) (Z.land x z)) (Z.land y z).
Definition Sigma0 (x : Z) : Z :=
  Z.lxor (Z.lxor (rotr 2 x) (rotr 13 x)) (rotr 22 x).
Definition Sigma1 (x : Z) : Z :=
  Z.lxor (Z.lxor (rotr 6 x) (rotr 11 x)) (rotr 25 x).
Definition sigma0 (x : Z) : Z :=
  Z.lxor (Z.lxor (rotr 7 x) (rotr 18 x)) (Z.shiftr x 3).
Definition sigma1 (x : Z) : Z :=
  Z.lxor (Z.lxor (rotr 17 x) (rotr 19 x)) (Z.shiftr x 10).

(** The constants are defined as the standard defines them: the first 32
    bits of the fractional parts of the cube roots (for [K]) and of the
    square roots (for [H0]) of the first primes. *)
Definition is_prime (n : Z) : bool :=
  forallb (fun d => negb (n mod Z.of_nat d =? 0)) (seq 2 (Z.to_nat n - 2)).

Definition first_primes (k : nat) : list Z :=
  firstn k (List.filter is_prime (map Z.of_nat (seq 2 310))).

(** The integer part of the [r]-th root of [x], its bits found from the
    top. *)
Fixpoint root_bits (r x : Z) (bit : nat) (acc : Z) : Z :=
  match bit with
  | O => acc
  | S bit' =>
      let cand := acc + 2 ^ Z.of_nat bit' in
      root_bits r x bit' (if cand ^ r <=? x then cand else acc)
  end.

Definition frac_root (r p : Z) : Z :=
  w32 (root_bits r (p * 2 ^ (32 * r)) 48 0).

Definition K : list Z := map (frac_root 3) (first_primes 64).

Record state := mkState { sa : Z; sb : Z; sc : Z; sd : Z;
                          se : Z; sf : Z; sg : Z; sh : Z }.

Definition H0 : state :=
  match map (frac_root 2) (first_primes 8) with
  | [a; b; c; d; e; f; g; h] => mkState a b c d e f g h
  | _ => mkState 0 0 0 0 0 0 0 0
  end.

Definition round (s : state) (k w : Z) : state :=
  let t1 := add32 (add32 (add32 (add32 (sh s) (Sigma1 (se s)))
                                (Ch (se s) (sf s) (sg s))) k) w in
  let t2 := add32 (Sigma0 (sa s)) (Maj (sa s) (sb s) (sc s)) in
  mkState (add32 t1 t2) (sa s) (sb s) (sc s)
          (add32 (sd s) t1) (se s) (sf s) (sg s).

(** [win] holds the sixteen most recent words of the message schedule. *)
Fixpoint rounds (ks : list Z) (win : list Z) (s : state) : state :=
  match ks with
  | [] => s
  | k :: ks' =>
      let w := nth 0 win 0 in
      let w16 := add32 (add32 (add32 (sigma1 (nth 14 win 0)) (nth 9 win 0))
                              (sigma0 (nth 1 win 0))) w in
      rounds ks' (tl win ++ [w16]) (round s k w)
  end.

Fixpoint be_words (n : nat) (bs : list Z) : list Z :=
  match n with
  | O => []
  | S n' =>
      (nth 0 bs 0 * 2 ^ 24 + nth 1 bs 0 * 2 ^ 16 + nth 2 bs 0 * 2 ^ 8
       + nth 3 bs 0) :: be_words n' (skipn 4 bs)
  end.

Definition compress (h : state) (block : list Z) : state :=
  let s := rounds K (be_words 16 block) h in
  mkState (add32 (sa h) (sa s)) (add32 (sb h) (sb s))
          (add32 (sc h) (sc s)) (add32 (sd h) (sd s))
          (add32 (se h) (se s)) (add32 (sf h) (sf s))
          (add32 (sg h) (sg s)) (add32 (sh h) (sh s)).

Fixpoint be_bytes (n : nat) (x : Z) : list Z :=
  match n with
  | O => []
  | S n' => (Z.shiftr x (8 * Z.of_nat n')) mod 256 :: be_bytes n' x
  end.

Definition pad (msg : list Z) : list Z :=
  let len := Z.of_nat (length msg) in
  msg ++ [0x80] ++ repeat 0 (Z.to_nat ((55 - len) mod 64))
      ++ be_bytes 8 (8 * len).

Fixpoint blocks (fuel : nat) (bs : list Z) (h : state) : state :=
  match fuel with
  | O => h
  | S fuel' =>
      match bs with
      | [] => h
      | _ => blocks fuel' (skipn 64 bs) (compress h (firstn 64 bs))
      end
  end.

Definition digest_words (h : state) : list Z :=
  be_bytes 4 (sa h) ++ be_bytes 4 (sb h) ++ be_bytes 4 (sc h)
  ++ be_bytes 4 (sd h) ++ be_bytes 4 (se h) ++ be_bytes 4 (sf h)
  ++ be_bytes 4 (sg h) ++ be_bytes 4 (sh h).

(** [CSHA256().Write(data, len).Finalize(out)]: the 32 bytes written. *)
Definition hash (msg : std_string) : bytes :=
  let p := pad (map uc msg) in
  map chr (digest_words (blocks (length p) p H0)).

(** [CSHA256::OUTPUT_SIZE] *)
Definition OUTPUT_SIZE : Z := 32.

End SHA256.

(** ** Hexadecimal rendering *)

(** Modelled from the spec: [HexStr] of the string-encoding utilities is
    not among the sources; the spec has it render every byte as two
    lowercase hex characters, high nibble first. *)
Definition hexmap : std_string := lit "0123456789abcdef".

Definition hexdigit (n : Z) : byte := nth (Z.to_nat n) hexmap x00.

Fixpoint HexStr (v : bytes) : std_string :=
  match v with
  | [] => []
  | b :: v' => hexdigit (Z.shiftr (uc b) 4) :: hexdigit (Z.land (uc b) 15)
               :: HexStr v'
  end.

(** ** The parts of [std::string] the address codec uses *)

Definition mem (c : byte) (cs : std_string) : bool := existsb (byte_eqb c) cs.

Fixpoint find_first_from (s cs : std_string) (i : Z) : Z :=
  match s with
  | [] => npos
  | c :: s' => if mem c cs then i else find_first_from s' cs (i + 1)
  end.

(** [s.find_first_of(cs)]: the position of the first character of [s]
    that occurs in [cs], or [npos]. *)
Definition find_first_of (s cs : std_string) : Z := find_first_from s cs 0.

Fixpoint find_last_from (s cs : std_string) (i last : Z) : Z :=
  match s with
  | [] => last
  | c :: s' => find_last_from s' cs (i + 1) (if mem c cs then i else last)
  end.

(** [s.find_last_of(cs)] *)
Definition find_last_of (s cs : std_string) : Z := find_last_from s cs 0 npos.

(** [s.substr(pos, count)]: throws when [pos] is past the end, and
    otherwise clips [count] to what is left of the string. *)
Definition substr (s : std_string) (pos count : Z) : outcome std_string :=
  if pos >? size s then Throw out_of_range
  else Ret (take (Z.to_nat (Z.min count (size s - pos))) (drop (Z.to_nat pos) s)).

(** [s.front()] of a string known to be non-empty. *)
Definition front (s : std_string) : byte := hd x00 s.

(** ** [std::to_string] and [std::stoul] *)

Definition isdigit (c : byte) : bool := (48 <=? uc c) && (uc c <=? 57).

(** space, and the control characters from tab to carriage return *)
Definition isspace (c : byte) : bool :=
  (uc c =? 32) || ((9 <=? uc c) && (uc c <=? 13)).

Fixpoint to_string_aux (fuel : nat) (n : Z) (acc : std_string) : std_string :=
  match fuel with
  | O => acc
  | S fuel' =>
      let acc' := chr (48 + n mod 10) :: acc in
      if n / 10 =? 0 then acc' else to_string_aux fuel' (n / 10) acc'
  end.

(** [std::to_string] of an unsigned value: its decimal digits. *)
Definition to_string (n : Z) : std_string :=
  to_string_aux (S (Z.to_nat (Z.log2 n))) n [].

Fixpoint skip_space (s : std_string) : std_string :=
  match s with
  | c :: s' => if isspace c then skip_space s' else s
  | [] => []
  end.

Fixpoint take_digits (s : std_string) : std_string :=
  match s with
  | c :: s' => if isdigit c then c :: take_digits s' else []
  | [] => []
  end.

Definition digits_val (ds : std_string) : Z :=
  fold_left (fun a c => 10 * a + (uc c - 48)) ds 0.

(** [std::stoul(s)] in base 10, as [strtoul] reads a number: leading white
    space is skipped, one sign is allowed, then the longest run of digits
    is taken and whatever follows is ignored.  No digit at all throws
    [invalid_argument], a magnitude above [ULONG_MAX] throws
    [out_of_range], and a minus sign negates in [unsigned long]. *)
Definition stoul (s : std_string) : outcome Z :=
  let s1 := skip_space s in
  let '(neg, s2) :=
    match s1 with
    | c :: s' => if uc c =? 45 then (true, s')
                 else if uc c =? 43 then (false, s') else (false, s1)
    | [] => (false, s1)
    end in
  let ds := take_digits s2 in
  if empty ds then Throw invalid_argument
  else
    let v := digits_val ds in
    if v >? ULONG_MAX then Throw out_of_range
    else Ret (if neg then to_size_t (- v) else v).

(** ** The deposit-address codec *)

Definition underscore : std_string := lit "_".

(** The checksum both functions compute: [HexStr] of the 32 bytes the
    hash writes into [vch]. *)
Definition address_hash (s : std_string) : std_string :=
  HexStr (SHA256.hash s).

Section Generate.

(** The number of this sidechain, a constant of the header that is not
    among the sources. *)
Variable THIS_SIDECHAIN : Z.

Definition GenerateDepositAddress (strDestIn : std_string)
  : outcome std_string :=
  let strDepositAddress := [] in
  let strDepositAddress := strDepositAddress ++ lit "s" in
  let strDepositAddress := strDepositAddress ++ to_string THIS_SIDECHAIN in
  let strDepositAddress := strDepositAddress ++ lit "_" in
  let strDepositAddress := strDepositAddress ++ strDestIn in
  let strDepositAddress := strDepositAddress ++ lit "_" in
  let strHash := address_hash strDepositAddress in
  do chk <- substr strHash 0 6 in
  Ret (strDepositAddress ++ chk).

End Generate.

(** The result of [ParseDepositAddress]: the returned [bool] and the final
    contents of the two reference parameters. *)
Record parsed := mkParsed {
  accepted : bool;
  strAddressOut : std_string;
  nSidechainOut : Z
}.

(** [ParseDepositAddress] takes the address by reference to a constant and
    the destination by reference.  This is the call that binds them to two
    different strings: what is assigned to [strAddressOut] leaves
    [strAddressIn] as it was.  The call that binds one string to both is
    [ParseDepositAddress_aliased] below. *)
Definition ParseDepositAddress (strAddressIn : std_string)
    (strAddressOut0 : std_string) (nSidechainOut0 : Z) : outcome parsed :=
  if empty strAddressIn then Ret (mkParsed false strAddressOut0 nSidechainOut0)
  else if negb (byte_eqb (front strAddressIn) "s"%byte)
  then Ret (mkParsed false strAddressOut0 nSidechainOut0)
  else
    let delim1 := to_uint (to_size_t (find_first_of strAddressIn underscore + 1)) in
    let delim2 := to_uint (find_last_of strAddressIn underscore) in
    if (delim1 =? npos) || (delim2 =? npos)
    then Ret (mkParsed false strAddressOut0 nSidechainOut0)
    else if (delim1 >=? size strAddressIn)
            || (to_uint (delim2 + 1) >=? size strAddressIn)
    then Ret (mkParsed false strAddressOut0 nSidechainOut0)
    else
      do strSidechain <- substr strAddressIn 1 delim1 in
      if empty strSidechain
      then Ret (mkParsed false strAddressOut0 nSidechainOut0)
      else
        match stoul strSidechain with
        | Throw _ => Ret (mkParsed false strAddressOut0 nSidechainOut0)
        | Undefined => Undefined
        | Ret v =>
            let nSidechainOut1 := to_uint v in
            if nSidechainOut1 >? 255
            then Ret (mkParsed false strAddressOut0 nSidechainOut1)
            else
              do strAddressOut1 <-
                 substr strAddressIn delim1 (to_uint (delim2 - delim1)) in
              if empty strAddressOut1
              then Ret (mkParsed false strAddressOut1 nSidechainOut1)
              else
                do strNoCheck <- substr strAddressIn 0 (to_uint (delim2 + 1)) in
                if empty strNoCheck
                then Ret (mkParsed false strAddressOut1 nSidechainOut1)
                else
                  let strHash := address_hash strNoCheck in
                  if negb (size strHash =? 64)
                  then Ret (mkParsed false strAddressOut1 nSidechainOut1)
                  else
                    do strCheck <- substr strAddressIn (to_uint (delim2 + 1))
                                          (size strAddressIn) in
                    if negb (size strCheck =? 6)
                    then Ret (mkParsed false strAddressOut1 nSidechainOut1)
                    else
                      do strHash6 <- substr strHash 0 6 in
                      if negb (string_eqb strCheck strHash6)
                      then Ret (mkParsed false strAddressOut1 nSidechainOut1)
                      else Ret (mkParsed true strAddressOut1 nSidechainOut1)
        end.

(** The call [ParseDepositAddress(str, str, n)], with one string for the
    address and the destination.  Up to the range check the string is only
    read.  The assignment to [strAddressOut] then replaces it, and each
    later use of [strAddressIn] reads the replaced string [str1], at the
    positions found in the first one [str0]. *)
Definition ParseDepositAddress_aliased (str0 : std_string)
    (nSidechainOut0 : Z) : outcome parsed :=
  if empty str0 then Ret (mkParsed false str0 nSidechainOut0)
  else if negb (byte_eqb (front str0) "s"%byte)
  then Ret (mkParsed false str0 nSidechainOut0)
  else
    let delim1 := to_uint (to_size_t (find_first_of str0 underscore + 1)) in
    let delim2 := to_uint (find_last_of str0 underscore) in
    if (delim1 =? npos) || (delim2 =? npos)
    then Ret (mkParsed false str0 nSidechainOut0)
    else if (delim1 >=? size str0) || (to_uint (delim2 + 1) >=? size str0)
    then Ret (mkParsed false str0 nSidechainOut0)
    else
      do strSidechain <- substr str0 1 delim1 in
      if empty strSidechain
      then Ret (mkParsed false str0 nSidechainOut0)
      else
        match stoul strSidechain with
        | Throw _ => Ret (mkParsed false str0 nSidechainOut0)
        | Undefined => Undefined
        | Ret v =>
            let nSidechainOut1 := to_uint v in
            if nSidechainOut1 >? 255
            then Ret (mkParsed false str0 nSidechainOut1)
            else
              do str1 <- substr str0 delim1 (to_uint (delim2 - delim1)) in
              if empty str1
              then Ret (mkParsed false str1 nSidechainOut1)
              else
                do strNoCheck <- substr str1 0 (to_uint (delim2 + 1)) in
                if empty strNoCheck
                then Ret (mkParsed false str1 nSidechainOut1)
                else
                  let strHash := address_hash strNoCheck in
                  if negb (size strHash =? 64)
                  then Ret (mkParsed false str1 nSidechainOut1)
                  else
                    do strCheck <- substr str1 (to_uint (delim2 + 1))
                                          (size str1) in
                    if negb (size strCheck =? 6)
                    then Ret (mkParsed false str1 nSidechainOut1)
                    else
                      do strHash6 <- substr strHash 0 6 in
                      if negb (string_eqb strCheck strHash6)
                      then Ret (mkParsed false str1 nSidechainOut1)
                      else Ret (mkParsed true str1 nSidechainOut1)
        end.


(** What the spec calls the sidechain-index field of an address: the
    characters after the leading one and before the first underscore. *)
Fixpoint before_underscore (s : std_string) : std_string :=
  match s with
  | c :: s' => if mem c underscore then [] else c :: before_underscore s'
  | [] => []
  end.

Definition index_field (addr : std_string) : std_string :=
  before_underscore (drop 1 addr).

(** An unsigned decimal integer in the plain sense: one or more digits and
    nothing else. *)
Definition unsigned_decimal (s : std_string) : bool :=
  negb (empty s) && forallb isdigit s.

(** ** Field encodings of the stream *)

(** Modelled from the spec: the serialisation framework ([CDataStream],
    [READWRITE]) is not among the sources.  The spec has integers written
    at their fixed width, strings as their length followed by their
    bytes, and digests as 32 bytes; integers are little-endian and the
    length is a compact size.  A read past the end of the stream throws. *)
Record codec (T : Type) := mkCodec {
  ser : T -> bytes;
  unser : bytes -> outcome (T * bytes)
}.
Arguments mkCodec {T} ser unser.
Arguments ser {T} c x.
Arguments unser {T} c ds.

Fixpoint le_bytes (n : nat) (z : Z) : bytes :=
  match n with
  | O => []
  | S n' => chr z :: le_bytes n' (Z.shiftr z 8)
  end.

Fixpoint le_value (bs : bytes) : Z :=
  match bs with
  | [] => 0
  | b :: bs' => uc b + 256 * le_value bs'
  end.

(** Reads [n] bytes off the stream. *)
Definition read (n : nat) (ds : bytes) : outcome (bytes * bytes) :=
  if (length ds <? n)%nat then Throw ios_failure
  else Ret (take n ds, drop n ds).

(** An unsigned integer of [n] bytes. *)
Definition uint_codec (n : nat) : codec Z :=
  mkCodec (fun z => le_bytes n z)
          (fun ds => do ' (bs, ds') <- read n ds in Ret (le_value bs, ds')).

(** A two's-complement integer of [n] bytes. *)
Definition signed (n : nat) (u : Z) : Z :=
  if u >=? 2 ^ (8 * Z.of_nat n - 1) then u - 2 ^ (8 * Z.of_nat n) else u.

Definition int_codec (n : nat) : codec Z :=
  mkCodec (fun z => le_bytes n z)
          (fun ds => do ' (bs, ds') <- read n ds in
                     Ret (signed n (le_value bs), ds')).

(** [char] and [uint8_t] *)
Definition char_codec : codec byte :=
  mkCodec (fun c => [c])
          (fun ds => match ds with
                     | c :: ds' => Ret (c, ds')
                     | [] => Throw ios_failure
                     end).

Definition WriteCompactSize (n : Z) : bytes :=
  if n <? 253 then [chr n]
  else if n <=? 0xFFFF then chr 253 :: le_bytes 2 n
  else if n <=? 0xFFFFFFFF then chr 254 :: le_bytes 4 n
  else chr 255 :: le_bytes 8 n.

Definition ReadCompactSize (ds : bytes) : outcome (Z * bytes) :=
  do ' (chSize, ds) <- unser char_codec ds in
  if uc chSize <? 253 then Ret (uc chSize, ds)
  else if uc chSize =? 253 then
    do ' (n, ds) <- unser (uint_codec 2) ds in
    if n <? 253 then Throw ios_failure else Ret (n, ds)
  else if uc chSize =? 254 then
    do ' (n, ds) <- unser (uint_codec 4) ds in
    if n <? 0x10000 then Throw ios_failure else Ret (n, ds)
  else
    do ' (n, ds) <- unser (uint_codec 8) ds in
    if n <? 0x100000000 then Throw ios_failure else Ret (n, ds).

Definition string_codec : codec std_string :=
  mkCodec (fun s => WriteCompactSize (size s) ++ s)
          (fun ds => do ' (n, ds) <- ReadCompactSize ds in
                     if size ds <? n then Throw ios_failure
                     else Ret (take (Z.to_nat n) ds, drop (Z.to_nat n) ds)).

(** [uint256]: 32 bytes, read as a number. *)
Definition uint256 := Z.
Definition uint256_codec : codec uint256 := uint_codec 32.

(** Modelled from the spec: a default-constructed [uint256] is the empty,
    all-zero digest. *)
Definition uint256_null : uint256 := 0.

(** [CAmount], a 64-bit signed count of the smallest unit. *)
Definition CAmount := Z.
Definition amount_codec : codec CAmount := int_codec 8.

(** Reading what [c] wrote for [x], whatever follows it on the stream,
    gives [x] back and leaves what follows. *)
Definition reads_back {T} (c : codec T) (x : T) : Prop :=
  forall rest, unser c (ser c x ++ rest) = Ret (x, rest).

(** ** The sidechain objects *)

(** Modelled from the spec: the structures are declared in the header,
    which is not among the sources.  Their fields are those the source
    reads, in the order the spec lists them, with the discriminant
    [sidechainop] of the base class first; each is serialised field by
    field in that order. *)
Module SidechainWT.
Record t := mk {
  sidechainop : byte;
  nSidechain : byte;
  strDestination : std_string;
  amount : CAmount;
  mainchainFee : CAmount;
  status : byte;
  hashBlindWTX : uint256
}.

Definition Serialize (w : t) : bytes :=
  ser char_codec (sidechainop w) ++ ser char_codec (nSidechain w)
  ++ ser string_codec (strDestination w) ++ ser amount_codec (amount w)
  ++ ser amount_codec (mainchainFee w) ++ ser char_codec (status w)
  ++ ser uint256_codec (hashBlindWTX w).

Definition Unserialize (ds : bytes) : outcome (t * bytes) :=
  do ' (op, ds) <- unser char_codec ds in
  do ' (n, ds) <- unser char_codec ds in
  do ' (dest, ds) <- unser string_codec ds in
  do ' (amt, ds) <- unser amount_codec ds in
  do ' (fee, ds) <- unser amount_codec ds in
  do ' (st, ds) <- unser char_codec ds in
  do ' (h, ds) <- unser uint256_codec ds in
  Ret (mk op n dest amt fee st h, ds).

(** The values the fields' types admit. *)
Definition valid (w : t) : Prop :=
  size (strDestination w) < 2 ^ 64
  /\ - 2 ^ 63 <= amount w < 2 ^ 63
  /\ - 2 ^ 63 <= mainchainFee w < 2 ^ 63
  /\ 0 <= hashBlindWTX w < 2 ^ 256.
End SidechainWT.

Section Objects.

(** The transaction type of the transaction subsystem, with its own
    encoding. *)
Variable CMutableTransaction : Type.
Variable tx_codec : codec CMutableTransaction.

(** The discriminants and the script opcode, constants of headers that
    are not among the sources. *)
Variable DB_SIDECHAIN_WT_OP : byte.
Variable DB_SIDECHAIN_WTPRIME_OP : byte.
Variable DB_SIDECHAIN_DEPOSIT_OP : byte.
Variable OP_RETURN : byte.

(** [SerializeHash], the digest of a serialisation. *)
Variable SerializeHash : bytes -> uint256.

Record SidechainWTPrime := mkWTPrime {
  wtprime_sidechainop : byte;
  wtprime_nSidechain : byte;
  wtPrime : CMutableTransaction;
  nHeight : Z;
  wtprime_status : byte
}.

Definition SidechainWTPrime_Serialize (p : SidechainWTPrime) : bytes :=
  ser char_codec (wtprime_sidechainop p)
  ++ ser char_codec (wtprime_nSidechain p)
  ++ ser tx_codec (wtPrime p) ++ ser (int_codec 4) (nHeight p)
  ++ ser char_codec (wtprime_status p).

Definition SidechainWTPrime_Unserialize (ds : bytes)
  : outcome (SidechainWTPrime * bytes) :=
  do ' (op, ds) <- unser char_codec ds in
  do ' (n, ds) <- unser char_codec ds in
  do ' (tx, ds) <- unser tx_codec ds in
  do ' (h, ds) <- unser (int_codec 4) ds in
  do ' (st, ds) <- unser char_codec ds in
  Ret (mkWTPrime op n tx h st, ds).

Definition SidechainWTPrime_valid (p : SidechainWTPrime) : Prop :=
  reads_back tx_codec (wtPrime p)
  /\ - 2 ^ 31 <= nHeight p < 2 ^ 31.

Record SidechainDeposit := mkDeposit {
  deposit_sidechainop : byte;
  deposit_nSidechain : byte;
  strDest : std_string;
  amtUserPayout : CAmount;
  dtx : CMutableTransaction;
  nBurnIndex : Z;
  nTx : Z;
  hashMainchainBlock : uint256
}.

Definition SidechainDeposit_Serialize (d : SidechainDeposit) : bytes :=
  ser char_codec (deposit_sidechainop d)
  ++ ser char_codec (deposit_nSidechain d)
  ++ ser string_codec (strDest d) ++ ser amount_codec (amtUserPayout d)
  ++ ser tx_codec (dtx d) ++ ser (uint_codec 4) (nBurnIndex d)
  ++ ser (uint_codec 4) (nTx d) ++ ser uint256_codec (hashMainchainBlock d).

Definition SidechainDeposit_Unserialize (ds : bytes)
  : outcome (SidechainDeposit * bytes) :=
  do ' (op, ds) <- unser char_codec ds in
  do ' (n, ds) <- unser char_codec ds in
  do ' (dest, ds) <- unser string_codec ds in
  do ' (amt, ds) <- unser amount_codec ds in
  do ' (tx, ds) <- unser tx_codec ds in
  do ' (burn, ds) <- unser (uint_codec 4) ds in
  do ' (ntx, ds) <- unser (uint_codec 4) ds in
  do ' (h, ds) <- unser uint256_codec ds in
  Ret (mkDeposit op n dest amt tx burn ntx h, ds).

Definition SidechainDeposit_valid (d : SidechainDeposit) : Prop :=
  size (strDest d) < 2 ^ 64
  /\ - 2 ^ 63 <= amtUserPayout d < 2 ^ 63
  /\ reads_back tx_codec (dtx d)
  /\ 0 <= nBurnIndex d < 2 ^ 32
  /\ 0 <= nTx d < 2 ^ 32
  /\ 0 <= hashMainchainBlock d < 2 ^ 256.

(** An object behind a [SidechainObj*]: the base class alone, or one of
    the three structures derived from it. *)
Inductive SidechainObj :=
| Base (op : byte)
| WT (w : SidechainWT.t)
| WTPrime (p : SidechainWTPrime)
| Deposit (d : SidechainDeposit).

(** The member [sidechainop] of the base class. *)
Definition sidechainop (this : SidechainObj) : byte :=
  match this with
  | Base op => op
  | WT w => SidechainWT.sidechainop w
  | WTPrime p => wtprime_sidechainop p
  | Deposit d => deposit_sidechainop d
  end.

(** The casts of [this] to a pointer to a derived structure, followed by
    a use of the derived object: defined only on an object of that
    type. *)
Definition as_WT (this : SidechainObj) : outcome SidechainWT.t :=
  match this with WT w => Ret w | _ => Undefined end.
Definition as_WTPrime (this : SidechainObj) : outcome SidechainWTPrime :=
  match this with WTPrime p => Ret p | _ => Undefined end.
Definition as_Deposit (this : SidechainObj) : outcome SidechainDeposit :=
  match this with Deposit d => Ret d | _ => Undefined end.

(** The three discriminants differ from one another. *)
Definition distinct_tags : Prop :=
  DB_SIDECHAIN_WT_OP <> DB_SIDECHAIN_WTPRIME_OP
  /\ DB_SIDECHAIN_WT_OP <> DB_SIDECHAIN_DEPOSIT_OP
  /\ DB_SIDECHAIN_WTPRIME_OP <> DB_SIDECHAIN_DEPOSIT_OP.

(** An object as its constructor leaves the discriminant. *)
Definition well_tagged (this : SidechainObj) : Prop :=
  match this with
  | Base _ => False
  | WT w => SidechainWT.sidechainop w = DB_SIDECHAIN_WT_OP
  | WTPrime p => wtprime_sidechainop p = DB_SIDECHAIN_WTPRIME_OP
  | Deposit d => deposit_sidechainop d = DB_SIDECHAIN_DEPOSIT_OP
  end.

Definition valid_fields (this : SidechainObj) : Prop :=
  match this with
  | Base _ => True
  | WT w => SidechainWT.valid w
  | WTPrime p => SidechainWTPrime_valid p
  | Deposit d => SidechainDeposit_valid d
  end.

(** The serialisation [GetScript] and [GetHash] dispatch to. *)
Definition Serialize (this : SidechainObj) : bytes :=
  match this with
  | Base _ => []
  | WT w => SidechainWT.Serialize w
  | WTPrime p => SidechainWTPrime_Serialize p
  | Deposit d => SidechainDeposit_Serialize d
  end.

Definition GetHash (this : SidechainObj) : outcome uint256 :=
  let ret := uint256_null in
  if byte_eqb (sidechainop this) DB_SIDECHAIN_WT_OP then
    do w <- as_WT this in Ret (SerializeHash (SidechainWT.Serialize w))
  else if byte_eqb (sidechainop this) DB_SIDECHAIN_WTPRIME_OP then
    do p <- as_WTPrime this in
    Ret (SerializeHash (SidechainWTPrime_Serialize p))
  else if byte_eqb (sidechainop this) DB_SIDECHAIN_DEPOSIT_OP then
    do d <- as_Deposit this in
    Ret (SerializeHash (SidechainDeposit_Serialize d))
  else Ret ret.

Definition ParseSidechainObj (vch : bytes) : outcome (option SidechainObj) :=
  if size vch =? 0 then Ret None
  else
    let vch0 := hd x00 vch in
    let ds := vch in
    if byte_eqb vch0 DB_SIDECHAIN_WT_OP then
      do ' (obj, _) <- SidechainWT.Unserialize ds in Ret (Some (WT obj))
    else if byte_eqb vch0 DB_SIDECHAIN_WTPRIME_OP then
      do ' (obj, _) <- SidechainWTPrime_Unserialize ds in
      Ret (Some (WTPrime obj))
    else if byte_eqb vch0 DB_SIDECHAIN_DEPOSIT_OP then
      do ' (obj, _) <- SidechainDeposit_Unserialize ds in
      Ret (Some (Deposit obj))
    else Ret None.

(** [memcpy(&dst[pos], src, n)] within the bounds of [dst]. *)
Fixpoint memcpy (dst : bytes) (pos : nat) (src : bytes) : bytes :=
  match src with
  | [] => dst
  | b :: src' => memcpy (<[pos := b]> dst) (S pos) src'
  end.

Definition GetScript (this : SidechainObj) : outcome bytes :=
  let ds : bytes := [] in
  do ds <-
     (if byte_eqb (sidechainop this) DB_SIDECHAIN_WT_OP then
        do w <- as_WT this in Ret (ds ++ SidechainWT.Serialize w)
      else if byte_eqb (sidechainop this) DB_SIDECHAIN_WTPRIME_OP then
        do p <- as_WTPrime this in Ret (ds ++ SidechainWTPrime_Serialize p)
      else if byte_eqb (sidechainop this) DB_SIDECHAIN_DEPOSIT_OP then
        do d <- as_Deposit this in Ret (ds ++ SidechainDeposit_Serialize d)
      else Ret ds) in
  let vch := ds in
  let scriptPubKey := replicate (5 + length vch) x00 in
  let scriptPubKey := <[0%nat := OP_RETURN]> scriptPubKey in
  let scriptPubKey := <[1%nat := chr 0xAC]> scriptPubKey in
  let scriptPubKey := <[2%nat := chr 0xDC]> scriptPubKey in
  let scriptPubKey := <[3%nat := chr 0xF6]> scriptPubKey in
  let scriptPubKey := <[4%nat := chr 0x6F]> scriptPubKey in
  let scriptPubKey := memcpy scriptPubKey 5 vch in
  Ret scriptPubKey.

End Objects.

Arguments SidechainObj CMutableTransaction : clear implicits.
Arguments Base {CMutableTransaction} op.
Arguments WT {CMutableTransaction} w.
Arguments WTPrime {CMutableTransaction} p.
Arguments Deposit {CMutableTransaction} d.
Arguments mkWTPrime {CMutableTransaction} _ _ _ _ _.
Arguments mkDeposit {CMutableTransaction} _ _ _ _ _ _ _ _.
Arguments sidechainop {CMutableTransaction} this.
Arguments well_tagged {CMutableTransaction} _ _ _ this.
Arguments valid_fields {CMutableTransaction} tx_codec this.
Arguments Serialize {CMutableTransaction} tx_codec this.
Arguments GetHash {CMutableTransaction} tx_codec _ _ _ SerializeHash this.
Arguments ParseSidechainObj {CMutableTransaction} tx_codec _ _ _ vch.
Arguments GetScript {CMutableTransaction} tx_codec _ _ _ OP_RETURN this.

(** ** Selecting the unspent withdrawals *)

Section Select.

(** The status of a withdrawal not yet in a bundle, a constant of the
    header. *)
Variable WT_UNSPENT : byte.

(** What a move leaves behind in the element moved from; the language
    only promises some valid value. *)
Variable moved_from : SidechainWT.t -> SidechainWT.t.

(** The predicate of the lambda. *)
Definition spent_or_pending (wt : SidechainWT.t) : bool :=
  negb (byte_eqb (SidechainWT.status wt) WT_UNSPENT).

(** [std::find_if(first, last, p)] on positions of a vector. *)
Fixpoint find_if (fuel : nat) (v : list SidechainWT.t) (first last : nat)
  : nat :=
  match fuel with
  | O => first
  | S fuel' =>
      if (first =? last)%nat then first
      else match v !! first with
           | Some x => if spent_or_pending x then first
                       else find_if fuel' v (S first) last
           | None => first
           end
  end.

(** The loop of [std::remove_if]:
    [i] runs from [first + 1] to [last]; an element that fails the
    predicate is moved to [first], which then advances. *)
Fixpoint remove_loop (fuel : nat) (v : list SidechainWT.t)
    (first i last : nat) : list SidechainWT.t * nat :=
  match fuel with
  | O => (v, first)
  | S fuel' =>
      let i := S i in
      if (i =? last)%nat then (v, first)
      else match v !! i with
           | Some x =>
               if negb (spent_or_pending x)
               then remove_loop fuel' (<[i := moved_from x]> (<[first := x]> v))
                                (S first) i last
               else remove_loop fuel' v first i last
           | None => (v, first)
           end
  end.

Definition remove_if (v : list SidechainWT.t) : list SidechainWT.t * nat :=
  let last := length v in
  let first := find_if (S last) v 0 last in
  if (first =? last)%nat then (v, first)
  else remove_loop last v first first last.

(** [v.erase(first, v.end())] *)
Definition erase_to_end (v : list SidechainWT.t) (first : nat)
  : list SidechainWT.t := take first v.

Definition SelectUnspentWT (vWT : list SidechainWT.t) : list SidechainWT.t :=
  let '(v, new_end) := remove_if vWT in
  erase_to_end v new_end.

End Select.

(** ** Status labels *)

Section Status.

(** The status values, constants of the header that is not among the
    sources. *)
Variable WT_UNSPENT : byte.
Variable WT_IN_WTPRIME : byte.
Variable WT_SPENT : byte.
Variable WTPRIME_CREATED : byte.
Variable WTPRIME_FAILED : byte.
Variable WTPRIME_SPENT : byte.
Variable CMutableTransaction : Type.

(** [SidechainWT::GetStatusStr] *)
Definition SidechainWT_GetStatusStr (this : SidechainWT.t) : std_string :=
  if byte_eqb (SidechainWT.status this) WT_UNSPENT then lit "Unspent"
  else if byte_eqb (SidechainWT.status this) WT_IN_WTPRIME
       then lit "Pending - in WT^"
  else if byte_eqb (SidechainWT.status this) WT_SPENT then lit "Spent"
  else lit "Unknown".

(** [SidechainWTPrime::GetStatusStr] *)
Definition SidechainWTPrime_GetStatusStr
    (this : SidechainWTPrime CMutableTransaction) : std_string :=
  if byte_eqb (wtprime_status _ this) WTPRIME_CREATED then lit "Created"
  else if byte_eqb (wtprime_status _ this) WTPRIME_FAILED then lit "Failed"
  else if byte_eqb (wtprime_status _ this) WTPRIME_SPENT then lit "Spent"
  else lit "Unknown".

End Status.

Arguments SidechainWTPrime_GetStatusStr _ _ _ {CMutableTransaction} this.

(** ** Ordering withdrawals and bundles *)

(** [CompareWTMainchainFee::operator()] *)
Definition CompareWTMainchainFee (a b : SidechainWT.t) : bool :=
  SidechainWT.mainchainFee a >? SidechainWT.mainchainFee b.

(** [CompareWTPrimeHeight::operator()] *)
Definition CompareWTPrimeHeight {CMutableTransaction : Type}
    (a b : SidechainWTPrime CMutableTransaction) : bool :=
  nHeight _ a >? nHeight _ b.

(** What the language requires of the comparison handed to [std::sort]: a
    strict weak ordering. *)
Definition strict_weak_ordering {A} (comp : A -> A -> bool) : Prop :=
  (forall a, comp a a = false)
  /\ (forall a b c, comp a b = true -> comp b c = true -> comp a c = true)
  /\ (forall a b c, comp a b = false -> comp b a = false ->
                    comp b c = false -> comp c b = false ->
                    comp a c = false /\ comp c a = false).

(** No element of [v] is ordered by [comp] before one that precedes it. *)
Definition sorted_by {A} (comp : A -> A -> bool) (v : list A) : Prop :=
  forall (i j : nat) (a b : A),
    (i < j)%nat -> v !! i = Some a -> v !! j = Some b -> comp b a = false.

(** What [std::sort(v.begin(), v.end(), comp)] promises of the vector [v']
    it leaves in place of [v]: the same elements, sorted by [comp].  The
    order it gives to elements that [comp] does not tell apart is its
    own. *)
Definition std_sort {A} (comp : A -> A -> bool) (v v' : list A) : Prop :=
  Permutation v v' /\ sorted_by comp v'.

(** [SortWTByFee] and [SortWTPrimeByHeight], as relations between the
    vector before and after. *)
Definition SortWTByFee (vWT vWT' : list SidechainWT.t) : Prop :=
  std_sort CompareWTMainchainFee vWT vWT'.

Definition SortWTPrimeByHeight {CMutableTransaction : Type}
    (vWTPrime vWTPrime' : list (SidechainWTPrime CMutableTransaction)) : Prop :=
  std_sort CompareWTPrimeHeight vWTPrime vWTPrime'.

(** One of the sixteen characters [HexStr] writes. *)
Definition is_lower_hex (c : byte) : bool := mem c hexmap.

(** No character of [s] occurs in [cs]. *)
Definition has_none (cs s : std_string) : Prop :=
  Forall (fun c => mem c cs = false) s.

(** The six characters both functions take from the rendered hash. *)
Definition checksum6 (s : std_string) : std_string :=
  take 6 (address_hash s).

(** The part of an address the checksum covers: the prefix character, the
    index field [ds], the destination, and the two underscores. *)
Definition address_prefix (ds dest : std_string) : std_string :=
  "s"%byte :: ds ++ "_"%byte :: dest ++ ["_"%byte].

(** A destination of 2^32 characters. *)
Definition long_destination : std_string :=
  repeat "a"%byte (Z.to_nat 4294967296).

(** A deposit, with a string standing for its transaction, on which the
    statements about objects are tried. *)
Definition sample_deposit : SidechainDeposit (list byte) :=
  mkDeposit "D"%byte x01 (lit "dest") 5000 (lit "rawtx") 1 2 (2 ^ 255 + 7).

(** A withdrawal of a given status and fee, and a bundle of a given
    height, on which the statements about ordering are tried. *)
Definition sample_wt (st : byte) (fee : Z) : SidechainWT.t :=
  SidechainWT.mk "W"%byte x01 (lit "dest") 1000 fee st 0.

Definition sample_wtprime (h : Z) : SidechainWTPrime (list byte) :=
  mkWTPrime "P"%byte x01 (lit "rawtx") h "c"%byte.

(** * Properties *)

(** ** The hash agrees with the published test vectors *)

Example sha256_first_constants :
  firstn 4 SHA256.K = [0x428a2f98; 0x71374491; 0xb5c0fbcf; 0xe9b5dba5]
  /\ SHA256.sa SHA256.H0 = 0x6a09e667 /\ length SHA256.K = 64%nat.
Proof. vm_compute. repeat split; reflexivity. Qed.

Example sha256_abc :
  HexStr (SHA256.hash (lit "abc"))
  = lit "ba7816bf8f01cfea414140de5dae2223b00361a396177a9cb410ff61f20015ad".
Proof. vm_compute. reflexivity. Qed.

Example sha256_empty :
  HexStr (SHA256.hash [])
  = lit "e3b0c44298fc1c149afbf4c8996fb92427ae41e4649b934ca495991b7852b855".
Proof. vm_compute. reflexivity. Qed.

Example sha256_two_blocks :
  HexStr (SHA256.hash (repeat "a"%byte 120))
  = lit "2f3d335432c70b580af0e8e1b3674a7c020d683aa5f73aaaedfdc55af904c21c".
Proof. vm_compute. reflexivity. Qed.

Example sha256_pad_boundary :
  HexStr (SHA256.hash (repeat "a"%byte 56))
  = lit "b35439a4ac6f0948b6d6f9e3c6af0f5f590ce20f1bde7090ef7970686ec6738a".
Proof. vm_compute. reflexivity. Qed.

(** ** Facts about bytes *)

Lemma uc_range (b : byte) : 0 <= uc b < 256.
Proof. unfold uc. pose proof (Byte.to_N_bounded b). lia. Qed.

Lemma chr_uc (b : byte) : chr (uc b) = b.
Proof.
  unfold chr. pose proof (uc_range b) as Hb.
  rewrite Z.mod_small by lia. unfold uc.
  rewrite N2Z.id, Byte.of_to_N. reflexivity.
Qed.

Lemma uc_chr (z : Z) : uc (chr z) = z mod 256.
Proof.
  unfold chr, uc.
  assert (Hm : 0 <= z mod 256 < 256) by (apply Z.mod_pos_bound; lia).
  destruct (Byte.of_N (Z.to_N (z mod 256))) as [b|] eqn:E.
  - apply Byte.to_of_N in E. rewrite E. lia.
  - apply Byte.of_N_None_iff in E. lia.
Qed.

Lemma uc_inj (a b : byte) : uc a = uc b -> a = b.
Proof. intros H. rewrite <- (chr_uc a), <- (chr_uc b), H. reflexivity. Qed.

Lemma byte_eqb_eq (a b : byte) : byte_eqb a b = true <-> a = b.
Proof.
  unfold byte_eqb. rewrite Z.eqb_eq. split; [apply uc_inj | congruence].
Qed.

Lemma byte_eqb_refl (a : byte) : byte_eqb a a = true.
Proof. apply byte_eqb_eq. reflexivity. Qed.

Lemma byte_eqb_neq (a b : byte) : byte_eqb a b = false <-> a <> b.
Proof.
  rewrite <- byte_eqb_eq. destruct (byte_eqb a b); split; congruence.
Qed.

Lemma string_eqb_eq (a b : std_string) : string_eqb a b = true <-> a = b.
Proof.
  revert b. induction a as [|x a IH]; intros [|y b]; simpl; try (split; congruence).
  rewrite andb_true_iff, byte_eqb_eq, IH. split; [intros []|intros [=]]; subst; auto.
Qed.

Lemma string_eqb_refl (a : std_string) : string_eqb a a = true.
Proof. apply string_eqb_eq. reflexivity. Qed.

(** ** Sizes *)

Lemma size_nonneg {A} (s : list A) : 0 <= size s.
Proof. unfold size. lia. Qed.

Lemma size_nil {A} : size (@nil A) = 0.
Proof. reflexivity. Qed.

Lemma size_cons {A} (x : A) (s : list A) : size (x :: s) = 1 + size s.
Proof. unfold size. simpl length. lia. Qed.

Lemma size_app {A} (s t : list A) : size (s ++ t) = size s + size t.
Proof. unfold size. rewrite length_app. lia. Qed.

Lemma to_nat_size {A} (s : list A) : Z.to_nat (size s) = length s.
Proof. unfold size. apply Nat2Z.id. Qed.

Lemma empty_false_iff {A} (s : list A) : empty s = false <-> s <> [].
Proof. destruct s; simpl; split; congruence. Qed.

Lemma empty_size {A} (s : list A) : empty s = (size s =? 0).
Proof. destruct s; [reflexivity|]. rewrite size_cons. pose proof (size_nonneg s). simpl. symmetry. apply Z.eqb_neq. lia. Qed.

Lemma to_uint_small (z : Z) : 0 <= z < 2 ^ 32 -> to_uint z = z.
Proof. intros H. unfold to_uint, UINT_MOD. apply Z.mod_small. lia. Qed.

Lemma to_size_t_small (z : Z) : 0 <= z < 2 ^ 64 -> to_size_t z = z.
Proof. intros H. unfold to_size_t, ULONG_MOD. apply Z.mod_small. lia. Qed.

Lemma to_uint_range (z : Z) : 0 <= to_uint z < 2 ^ 32.
Proof. unfold to_uint, UINT_MOD. apply Z.mod_pos_bound. lia. Qed.

(** ** [substr] *)

Lemma substr_Ret (s : std_string) (pos count : Z) :
  0 <= pos <= size s ->
  substr s pos count
  = Ret (take (Z.to_nat (Z.min count (size s - pos))) (drop (Z.to_nat pos) s)).
Proof.
  intros H. unfold substr.
  destruct (pos >? size s) eqn:E; [lia | reflexivity].
Qed.

(** The middle of three pieces. *)
Lemma substr_middle (a b c : std_string) (count : Z) :
  count = size b ->
  substr (a ++ b ++ c) (size a) count = Ret b.
Proof.
  intros ->. rewrite substr_Ret.
  2:{ rewrite !size_app. pose proof (size_nonneg a). pose proof (size_nonneg b).
      pose proof (size_nonneg c). lia. }
  f_equal. rewrite to_nat_size, drop_app_length.
  rewrite !size_app. pose proof (size_nonneg c).
  replace (Z.min _ _) with (size b) by lia.
  rewrite to_nat_size. apply take_app_length.
Qed.

(** Everything from a position on, when [count] reaches the end. *)
Lemma substr_suffix (a b : std_string) (count : Z) :
  size b <= count ->
  substr (a ++ b) (size a) count = Ret b.
Proof.
  intros H. rewrite substr_Ret.
  2:{ rewrite size_app. pose proof (size_nonneg a). pose proof (size_nonneg b). lia. }
  f_equal. rewrite to_nat_size, drop_app_length.
  rewrite size_app. replace (Z.min _ _) with (size b) by lia.
  rewrite to_nat_size. apply firstn_all.
Qed.

Lemma substr_prefix (a b : std_string) (count : Z) :
  count = size a ->
  substr (a ++ b) 0 count = Ret a.
Proof.
  intros H. apply (substr_middle [] a b count H).
Qed.

(** ** Searching for a character *)

Lemma find_first_from_app (a b cs : std_string) (c : byte) (i : Z) :
  has_none cs a -> mem c cs = true ->
  find_first_from (a ++ c :: b) cs i = i + size a.
Proof.
  intros Ha Hc. revert i. induction Ha as [|x a Hx Ha IH]; intros i; simpl.
  - rewrite Hc, size_nil. lia.
  - rewrite Hx, IH, size_cons. lia.
Qed.

Lemma find_first_of_app (a b cs : std_string) (c : byte) :
  has_none cs a -> mem c cs = true ->
  find_first_of (a ++ c :: b) cs = size a.
Proof. intros. unfold find_first_of. rewrite find_first_from_app; auto. Qed.

Lemma find_first_from_none (s cs : std_string) (i : Z) :
  has_none cs s -> find_first_from s cs i = npos.
Proof.
  intros H. revert i. induction H as [|x s Hx Hs IH]; intros i; simpl; [reflexivity|].
  rewrite Hx. apply IH.
Qed.

Lemma find_last_from_none (s cs : std_string) (i last : Z) :
  has_none cs s -> find_last_from s cs i last = last.
Proof.
  intros H. revert i last. induction H as [|x s Hx Hs IH]; intros i last; simpl; [reflexivity|].
  rewrite Hx. apply IH.
Qed.

Lemma find_last_from_app (a b cs : std_string) (c : byte) (i last : Z) :
  has_none cs b -> mem c cs = true ->
  find_last_from (a ++ c :: b) cs i last = i + size a.
Proof.
  intros Hb Hc. revert i last. induction a as [|x a IH]; intros i last; simpl.
  - rewrite Hc, find_last_from_none, size_nil by assumption. lia.
  - rewrite IH, size_cons. lia.
Qed.

Lemma find_last_of_app (a b cs : std_string) (c : byte) :
  has_none cs b -> mem c cs = true ->
  find_last_of (a ++ c :: b) cs = size a.
Proof. intros. unfold find_last_of. rewrite find_last_from_app; auto. Qed.

(** ** The checksum *)

Lemma be_bytes_length (n : nat) (x : Z) : length (SHA256.be_bytes n x) = n.
Proof. induction n as [|n IH]; simpl; [reflexivity | now rewrite IH]. Qed.

Lemma hash_length (msg : std_string) : length (SHA256.hash msg) = 32%nat.
Proof.
  unfold SHA256.hash, SHA256.digest_words.
  rewrite length_map, !length_app, !be_bytes_length. reflexivity.
Qed.

Lemma HexStr_length (v : bytes) : length (HexStr v) = (2 * length v)%nat.
Proof. induction v as [|b v IH]; simpl; [reflexivity | rewrite IH; lia]. Qed.

Lemma address_hash_size (s : std_string) : size (address_hash s) = 64.
Proof.
  unfold size, address_hash. rewrite HexStr_length, hash_length. reflexivity.
Qed.

Lemma hexdigit_no_underscore (b : byte) :
  mem (hexdigit (Z.shiftr (uc b) 4)) underscore = false
  /\ mem (hexdigit (Z.land (uc b) 15)) underscore = false.
Proof. destruct b; split; reflexivity. Qed.

Lemma HexStr_no_underscore (v : bytes) : has_none underscore (HexStr v).
Proof.
  induction v as [|b v IH]; simpl; [constructor|].
  destruct (hexdigit_no_underscore b). repeat constructor; assumption.
Qed.

Lemma has_none_take (cs s : std_string) (n : nat) :
  has_none cs s -> has_none cs (take n s).
Proof. apply Forall_take. Qed.

Lemma checksum6_Ret (s : std_string) :
  substr (address_hash s) 0 6 = Ret (checksum6 s).
Proof.
  rewrite substr_Ret by (rewrite address_hash_size; lia).
  rewrite address_hash_size. reflexivity.
Qed.

Lemma checksum6_size (s : std_string) : size (checksum6 s) = 6.
Proof.
  unfold checksum6, size. rewrite length_take.
  pose proof (address_hash_size s) as H. unfold size in H. lia.
Qed.

Lemma checksum6_no_underscore (s : std_string) :
  has_none underscore (checksum6 s).
Proof. apply has_none_take, HexStr_no_underscore. Qed.

(** ** Decimal numbers *)

Lemma isdigit_chr (d : Z) : 0 <= d < 10 -> isdigit (chr (48 + d)) = true.
Proof.
  intros H. unfold isdigit. rewrite uc_chr, Z.mod_small by lia.
  apply andb_true_iff. split; apply Z.leb_le; lia.
Qed.

Lemma digits_val_snoc (ds : std_string) (c : byte) :
  digits_val (ds ++ [c]) = 10 * digits_val ds + (uc c - 48).
Proof. unfold digits_val. rewrite fold_left_app. reflexivity. Qed.

(** The digits [to_string_aux] puts in front of [acc] are those of [n]. *)
Lemma to_string_aux_spec (fuel : nat) :
  forall (n : Z) (acc : std_string),
    0 <= n < 2 ^ Z.of_nat fuel -> (0 < fuel)%nat ->
    exists ds, to_string_aux fuel n acc = ds ++ acc
               /\ ds <> [] /\ forallb isdigit ds = true /\ digits_val ds = n.
Proof.
  induction fuel as [|fuel IH]; intros n acc Hn Hf; [lia|].
  simpl. assert (Hd : 0 <= n mod 10 < 10) by (apply Z.mod_pos_bound; lia).
  destruct (n / 10 =? 0) eqn:E.
  - apply Z.eqb_eq in E. exists [chr (48 + n mod 10)]. repeat split.
    + discriminate.
    + simpl. rewrite isdigit_chr by lia. reflexivity.
    + unfold digits_val. simpl. rewrite uc_chr, (Z.mod_small (48 + _)) by lia.
      pose proof (Z.div_mod n 10). lia.
  - apply Z.eqb_neq in E.
    assert (Hq : 0 < n / 10) by (pose proof (Z.div_pos n 10); lia).
    assert (Hlt : n / 10 < 2 ^ Z.of_nat fuel).
    { apply Z.div_lt_upper_bound; [lia|].
      rewrite Nat2Z.inj_succ, Z.pow_succ_r in Hn by lia. lia. }
    destruct fuel as [|fuel'].
    { simpl in Hlt. lia. }
    destruct (IH (n / 10) (chr (48 + n mod 10) :: acc)) as (ds & Hds & Hne & Hdig & Hval);
      [lia | lia |].
    exists (ds ++ [chr (48 + n mod 10)]). repeat split.
    + rewrite Hds, <- app_assoc. reflexivity.
    + destruct ds; discriminate.
    + rewrite forallb_app, Hdig. simpl. rewrite isdigit_chr by lia. reflexivity.
    + rewrite digits_val_snoc, Hval, uc_chr, (Z.mod_small (48 + _)) by lia.
      pose proof (Z.div_mod n 10). lia.
Qed.

Lemma to_string_spec (n : Z) :
  0 <= n ->
  to_string n <> [] /\ forallb isdigit (to_string n) = true
  /\ digits_val (to_string n) = n.
Proof.
  intros Hn. unfold to_string.
  destruct (to_string_aux_spec (S (Z.to_nat (Z.log2 n))) n []) as (ds & Hds & Hne & Hdig & Hval).
  - split; [lia|]. rewrite Nat2Z.inj_succ, Z2Nat.id by apply Z.log2_nonneg.
    destruct (Z.eq_dec n 0) as [->|]; [simpl; lia|].
    apply Z.log2_spec. lia.
  - lia.
  - rewrite Hds, app_nil_r. auto.
Qed.

(** Digits are neither white space, nor signs, nor underscores. *)
Lemma isdigit_not_space (c : byte) : isdigit c = true -> isspace c = false.
Proof.
  unfold isdigit, isspace. intros H. apply andb_true_iff in H as [H1 H2].
  apply Z.leb_le in H1. 
  apply orb_false_iff. split; [apply Z.eqb_neq; lia|].
  apply andb_false_iff. right. apply Z.leb_gt. lia.
Qed.

Lemma isdigit_not_underscore (c : byte) : isdigit c = true -> mem c underscore = false.
Proof.
  unfold isdigit, mem, underscore. simpl. unfold byte_eqb. intros H.
  apply andb_true_iff in H as [H1 H2]. apply Z.leb_le in H2.
  rewrite orb_false_r. apply Z.eqb_neq. change (uc "_"%byte) with 95. lia.
Qed.

Lemma digits_has_no_underscore (ds : std_string) :
  forallb isdigit ds = true -> has_none underscore ds.
Proof.
  intros H. apply Forall_forall. intros c Hc.
  apply isdigit_not_underscore. rewrite forallb_forall in H. apply H.
  apply list_elem_of_In. exact Hc.
Qed.

Lemma take_digits_app (ds rest : std_string) (c : byte) :
  forallb isdigit ds = true -> isdigit c = false ->
  take_digits (ds ++ c :: rest) = ds.
Proof.
  intros Hds Hc. induction ds as [|d ds IH]; simpl in *.
  - rewrite Hc. reflexivity.
  - apply andb_true_iff in Hds as [Hd Hds]. rewrite Hd, IH by assumption. reflexivity.
Qed.

(** [stoul] reads a run of digits up to the first other character. *)
Lemma stoul_digits (ds rest : std_string) (c : byte) :
  ds <> [] -> forallb isdigit ds = true -> isdigit c = false ->
  digits_val ds <= ULONG_MAX ->
  stoul (ds ++ c :: rest) = Ret (digits_val ds).
Proof.
  intros Hne Hds Hc Hmax. unfold stoul.
  destruct ds as [|d ds]; [congruence|].
  pose proof Hds as Hds'. simpl in Hds'. apply andb_true_iff in Hds' as [Hd _].
  simpl skip_space. rewrite (isdigit_not_space d Hd).
  unfold isdigit in Hd. apply andb_true_iff in Hd as [Hd1 Hd2].
  apply Z.leb_le in Hd1.
  replace (uc d =? 45) with false by (symmetry; apply Z.eqb_neq; lia).
  replace (uc d =? 43) with false by (symmetry; apply Z.eqb_neq; lia).
  change (d :: ds ++ c :: rest) with ((d :: ds) ++ c :: rest).
  rewrite take_digits_app by assumption.
  simpl empty.
  destruct (digits_val (d :: ds) >? ULONG_MAX) eqn:E; [lia | reflexivity].
Qed.

(** Both sides are the same list up to the bracketing of [++]. *)
Ltac reassoc :=
  unfold address_prefix; simpl;
  repeat (rewrite <- app_assoc; simpl); reflexivity.

(** ** Generated addresses *)

Lemma Generate_shape (N : Z) (dest : std_string) :
  GenerateDepositAddress N dest
  = Ret (address_prefix (to_string N) dest
         ++ checksum6 (address_prefix (to_string N) dest)).
Proof.
  unfold GenerateDepositAddress.
  change (lit "s") with ["s"%byte]. change (lit "_") with ["_"%byte].
  replace ((((([] ++ ["s"%byte]) ++ to_string N) ++ ["_"%byte]) ++ dest) ++ ["_"%byte])
    with (address_prefix (to_string N) dest).
  2:{ reassoc. }
  rewrite checksum6_Ret. reflexivity.
Qed.

Lemma address_prefix_size (ds dest : std_string) :
  size (address_prefix ds dest) = size ds + size dest + 3.
Proof.
  unfold address_prefix. rewrite size_cons, size_app, size_cons, size_app, size_cons, size_nil. lia.
Qed.

(** ** Running the parser on an address of the generated shape *)

Lemma geb_false (a b : Z) : a < b -> (a >=? b) = false.
Proof. intros H. rewrite Z.geb_leb. apply Z.leb_gt. exact H. Qed.

Lemma gtb_false (a b : Z) : a <= b -> (a >? b) = false.
Proof. intros H. rewrite Z.gtb_ltb. apply Z.ltb_ge. exact H. Qed.

Lemma eqb_false (a b : Z) : a <> b -> (a =? b) = false.
Proof. apply Z.eqb_neq. Qed.


Lemma substr_from (a b : std_string) (count : Z) :
  0 <= count ->
  substr (a ++ b) (size a) count = Ret (take (Z.to_nat count) b).
Proof.
  intros H. rewrite substr_Ret.
  2:{ rewrite size_app. pose proof (size_nonneg a). pose proof (size_nonneg b). lia. }
  f_equal. rewrite to_nat_size, drop_app_length, size_app.
  replace (size a + size b - size a) with (size b) by lia.
  destruct (Z.le_ge_cases count (size b)).
  - rewrite Z.min_l by lia. reflexivity.
  - rewrite Z.min_r by lia. rewrite to_nat_size, firstn_all.
    symmetry. apply take_ge. unfold size in *. lia.
Qed.

(** Only the part before the checksum has to be shorter than 2^32: no
    position the parser stores in an [unsigned int] lies beyond it. *)
Lemma parse_shape_wide (ds dest chk o : std_string) (n : Z) :
  ds <> [] -> forallb isdigit ds = true -> digits_val ds <= ULONG_MAX ->
  to_uint (digits_val ds) <= 255 ->
  dest <> [] ->
  has_none underscore chk -> size chk = 6 ->
  size (address_prefix ds dest) < 2 ^ 32 ->
  ParseDepositAddress (address_prefix ds dest ++ chk) o n
  = Ret (mkParsed (string_eqb chk (checksum6 (address_prefix ds dest)))
                  dest (to_uint (digits_val ds))).
Proof.
  intros Hne Hdig Hmax Hidx Hdest Hchk Hsz Hlen.
  pose proof (size_nonneg ds) as Hs1. pose proof (size_nonneg dest) as Hs2.
  assert (Hdne : 0 < size dest).
  { destruct dest; [congruence|]. rewrite size_cons. pose proof (size_nonneg dest). lia. }
  rewrite address_prefix_size in Hlen.
  set (s := address_prefix ds dest ++ chk).
  assert (Hsize : size s = size ds + size dest + 9).
  { unfold s. rewrite size_app, address_prefix_size. lia. }
  assert (Hfirst : find_first_of s underscore = 1 + size ds).
  { replace s with (("s"%byte :: ds) ++ "_"%byte :: (dest ++ ["_"%byte] ++ chk)).
    2:{ unfold s. reassoc. }
    rewrite find_first_of_app, size_cons; [reflexivity | | reflexivity].
    constructor; [reflexivity | apply digits_has_no_underscore, Hdig]. }
  assert (Hlast : find_last_of s underscore = 2 + size ds + size dest).
  { replace s with (("s"%byte :: ds ++ "_"%byte :: dest) ++ "_"%byte :: chk).
    2:{ unfold s. reassoc. }
    rewrite find_last_of_app, size_cons, size_app, size_cons; [lia | assumption | reflexivity]. }
  unfold ParseDepositAddress. fold s.
  replace (empty s) with false by (unfold s, address_prefix; reflexivity).
  replace (front s) with "s"%byte by reflexivity.
  rewrite byte_eqb_refl. cbv beta iota zeta. cbn [negb]. cbv iota.
  rewrite Hfirst, Hlast, Hsize.
  rewrite (to_size_t_small (1 + size ds + 1)) by lia.
  rewrite (to_uint_small (1 + size ds + 1)) by lia.
  rewrite (to_uint_small (2 + size ds + size dest)) by lia.
  rewrite (to_uint_small (2 + size ds + size dest + 1)) by lia.
  replace (2 + size ds + size dest - (1 + size ds + 1)) with (size dest) by lia.
  rewrite (to_uint_small (size dest)) by lia.
  rewrite !eqb_false by (unfold npos, ULONG_MAX; lia).
  rewrite !geb_false by lia.
  cbn [orb]. cbv iota.
  (* strSidechain *)
  replace (substr s 1 (1 + size ds + 1))
    with (Ret (ds ++ "_"%byte :: take 1 (dest ++ ["_"%byte] ++ chk))).
  2:{ symmetry.
      replace s with (["s"%byte] ++ (ds ++ "_"%byte :: (dest ++ ["_"%byte] ++ chk))).
      2:{ unfold s. reassoc. }
      change 1 with (size ["s"%byte]) at 1. rewrite substr_from by lia.
      f_equal. replace (Z.to_nat (1 + size ds + 1)) with (length ds + 2)%nat by (unfold size; lia).
      rewrite take_app_add. f_equal. }
  unfold bind at 1.
  replace (empty (ds ++ "_"%byte :: take 1 (dest ++ ["_"%byte] ++ chk))) with false
    by (destruct ds; reflexivity).
  rewrite stoul_digits by (assumption || reflexivity).
  rewrite gtb_false by lia.
  (* strAddressOut *)
  replace (substr s (1 + size ds + 1) (size dest)) with (Ret dest).
  2:{ symmetry.
      replace s with (("s"%byte :: ds ++ ["_"%byte]) ++ dest ++ ("_"%byte :: chk)).
      2:{ unfold s. reassoc. }
      replace (1 + size ds + 1) with (size ("s"%byte :: ds ++ ["_"%byte])).
      2:{ rewrite size_cons, size_app, size_cons, size_nil. lia. }
      apply substr_middle. reflexivity. }
  unfold bind at 1.
  replace (empty dest) with false by (destruct dest; [congruence | reflexivity]).
  (* strNoCheck *)
  replace (substr s 0 (2 + size ds + size dest + 1)) with (Ret (address_prefix ds dest)).
  2:{ symmetry. apply substr_prefix. rewrite address_prefix_size. lia. }
  unfold bind at 1.
  replace (empty (address_prefix ds dest)) with false by reflexivity.
  rewrite address_hash_size. change (64 =? 64) with true. cbn [negb]. cbv iota.
  (* strCheck *)
  replace (substr s (2 + size ds + size dest + 1) (size ds + size dest + 9)) with (Ret chk).
  2:{ symmetry. replace (2 + size ds + size dest + 1) with (size (address_prefix ds dest))
        by (rewrite address_prefix_size; lia).
      apply substr_suffix. lia. }
  unfold bind at 1. rewrite Hsz. change (6 =? 6) with true. cbn [negb]. cbv iota.
  rewrite checksum6_Ret. unfold bind.
  destruct (string_eqb chk (checksum6 (address_prefix ds dest))); reflexivity.
Qed.

Lemma parse_shape (ds dest chk o : std_string) (n : Z) :
  ds <> [] -> forallb isdigit ds = true -> digits_val ds <= ULONG_MAX ->
  to_uint (digits_val ds) <= 255 ->
  dest <> [] ->
  has_none underscore chk -> size chk = 6 ->
  size (address_prefix ds dest ++ chk) < 2 ^ 32 ->
  ParseDepositAddress (address_prefix ds dest ++ chk) o n
  = Ret (mkParsed (string_eqb chk (checksum6 (address_prefix ds dest)))
                  dest (to_uint (digits_val ds))).
Proof.
  intros Hne Hdig Hmax Hidx Hdest Hchk Hsz Hlen.
  apply parse_shape_wide; try assumption.
  rewrite size_app, Hsz in Hlen. lia.
Qed.

(** ** The parser always returns, and what it accepts *)

Lemma stoul_defined (s : std_string) : stoul s <> Undefined.
Proof.
  unfold stoul.
  destruct (match skip_space s with
            | [] => (false, skip_space s)
            | c :: s' => if uc c =? 45 then (true, s')
                         else if uc c =? 43 then (false, s') else (false, skip_space s)
            end) as [neg s2].
  destruct (empty (take_digits s2)); [discriminate|].
  destruct (digits_val (take_digits s2) >? ULONG_MAX); discriminate.
Qed.

Ltac rejected :=
  eexists; split; [reflexivity | cbn [accepted]; intros; discriminate].

Lemma parse_returns (s o : std_string) (n : Z) :
  exists r, ParseDepositAddress s o n = Ret r
            /\ (accepted r = true -> exists p, s = p ++ checksum6 p).
Proof.
  unfold ParseDepositAddress.
  destruct (empty s); [rejected|].
  destruct (negb (byte_eqb (front s) "s"%byte)); [rejected|].
  cbv zeta.
  set (delim1 := to_uint (to_size_t (find_first_of s underscore + 1))).
  set (delim2 := to_uint (find_last_of s underscore)).
  set (e := to_uint (delim2 + 1)).
  destruct ((delim1 =? npos) || (delim2 =? npos)); [rejected|].
  destruct ((delim1 >=? size s) || (e >=? size s)) eqn:Hg; [rejected|].
  apply orb_false_iff in Hg as [Hg1 Hg2].
  rewrite Z.geb_leb in Hg1, Hg2. apply Z.leb_gt in Hg1, Hg2.
  pose proof (to_uint_range (to_size_t (find_first_of s underscore + 1))) as Hd1.
  pose proof (to_uint_range (delim2 + 1)) as Hd2.
  fold delim1 in Hd1. fold e in Hd2.
  rewrite (substr_Ret s 1) by lia. unfold bind at 1.
  destruct (empty _); [rejected|].
  destruct (stoul _) as [v|ex|] eqn:Hv; [|rejected|now apply stoul_defined in Hv].
  destruct (to_uint v >? 255); [rejected|].
  rewrite (substr_Ret s delim1) by lia. unfold bind at 1.
  destruct (empty _); [rejected|].
  rewrite (substr_Ret s 0) by lia. unfold bind at 1.
  destruct (empty _); [rejected|].
  destruct (negb (size (address_hash _) =? 64)); [rejected|].
  rewrite (substr_Ret s e) by lia. unfold bind at 1.
  destruct (negb (size _ =? 6)); [rejected|].
  rewrite checksum6_Ret. unfold bind.
  destruct (negb (string_eqb _ _)) eqn:Heq; [rejected|].
  eexists; split; [reflexivity|]. intros _.
  apply negb_false_iff, string_eqb_eq in Heq.
  rewrite Z.sub_0_r, (Z.min_l e), (Z.min_r (size s)) in Heq by lia.
  change (drop (Z.to_nat 0) s) with s in Heq.
  rewrite take_ge in Heq by (rewrite length_drop; unfold size; lia).
  exists (take (Z.to_nat e) s).
  rewrite <- Heq. symmetry. apply take_drop.
Qed.

Lemma parse_total (s o : std_string) (n : Z) :
  exists r, ParseDepositAddress s o n = Ret r.
Proof. destruct (parse_returns s o n) as (r & Hr & _). eauto. Qed.

Lemma parse_accept_inv (s o : std_string) (n : Z) (r : parsed) :
  ParseDepositAddress s o n = Ret r -> accepted r = true ->
  exists p, s = p ++ checksum6 p.
Proof.
  intros Hr Ha. destruct (parse_returns s o n) as (r' & Hr' & H).
  rewrite Hr in Hr'. injection Hr' as <-. auto.
Qed.

Lemma Ret_inj {A} (a b : A) : Ret a = Ret b -> a = b.
Proof. intros H. congruence. Qed.

(** ** Round trip of the address codec *)

Lemma to_string_size_le (N : Z) : 0 <= N <= 255 -> size (to_string N) <= 3.
Proof.
  intros H.
  assert (Hall : forallb (fun k => size (to_string (Z.of_nat k)) <=? 3) (seq 0 256) = true)
    by (vm_compute; reflexivity).
  rewrite forallb_forall in Hall.
  specialize (Hall (Z.to_nat N)). rewrite Z2Nat.id in Hall by lia.
  apply Z.leb_le, Hall, in_seq. lia.
Qed.

(** For every sidechain number in [0,255] and every non-empty
    destination (underscores allowed) of fewer than 2^32 - 6 characters,
    parsing the generated address into other objects than the address
    succeeds and gives back that destination and that number.  Up to that
    length every position the parser keeps fits its [unsigned int]. *)
Theorem address_round_trip (N : Z) (dest o : std_string) (n : Z) :
  0 <= N <= 255 -> dest <> [] -> size dest + 6 < 2 ^ 32 ->
  (do a <- GenerateDepositAddress N dest in ParseDepositAddress a o n)
  = Ret (mkParsed true dest N).
Proof.
  intros HN Hdest Hlen.
  destruct (to_string_spec N) as (Hne & Hdig & Hval); [lia|].
  pose proof (to_string_size_le N HN) as Hds.
  rewrite Generate_shape. unfold bind.
  rewrite parse_shape_wide; try assumption.
  - rewrite string_eqb_refl, Hval, to_uint_small by lia. reflexivity.
  - rewrite Hval. unfold ULONG_MAX. lia.
  - rewrite Hval, to_uint_small by lia. lia.
  - apply checksum6_no_underscore.
  - apply checksum6_size.
  - rewrite address_prefix_size. lia.
Qed.

Lemma address_round_trip_witness :
  0 <= 7 <= 255 /\ lit "to_a_b" <> [] /\ size (lit "to_a_b") + 6 < 2 ^ 32
  /\ (do a <- GenerateDepositAddress 7 (lit "to_a_b") in
      ParseDepositAddress a (lit "old") 99)
     = Ret (mkParsed true (lit "to_a_b") 7).
Proof.
  assert (H1 : 0 <= 7 <= 255) by lia.
  assert (H2 : lit "to_a_b" <> []) by discriminate.
  assert (H3 : size (lit "to_a_b") + 6 < 2 ^ 32) by (vm_compute; reflexivity).
  exact (conj H1 (conj H2 (conj H3
           (address_round_trip 7 (lit "to_a_b") (lit "old") 99 H1 H2 H3)))).
Defined.

(** ** The parser is not atomic *)

(** C10: an address whose index parses and whose destination is not empty
    but whose six checksum characters are not the right ones is rejected,
    and by then both reference parameters hold the parsed values, whatever
    they held before. *)
Theorem parse_failure_overwrites_outputs
    (N : Z) (dest chk o : std_string) (n : Z) :
  0 <= N <= 255 -> dest <> [] -> size dest + 12 < 2 ^ 32 ->
  has_none underscore chk -> size chk = 6 ->
  chk <> checksum6 (address_prefix (to_string N) dest) ->
  ParseDepositAddress (address_prefix (to_string N) dest ++ chk) o n
  = Ret (mkParsed false dest N).
Proof.
  intros HN Hdest Hlen Hchk Hsz Hbad.
  destruct (to_string_spec N) as (Hne & Hdig & Hval); [lia|].
  pose proof (to_string_size_le N HN) as Hds.
  rewrite parse_shape; try assumption.
  - rewrite Hval, to_uint_small by lia.
    destruct (string_eqb _ _) eqn:E; [|reflexivity].
    apply string_eqb_eq in E. contradiction.
  - rewrite Hval. unfold ULONG_MAX. lia.
  - rewrite Hval, to_uint_small by lia. lia.
  - rewrite size_app, address_prefix_size, Hsz. lia.
Qed.

Lemma parse_failure_overwrites_outputs_witness :
  0 <= 5 <= 255 /\ lit "abc" <> [] /\ size (lit "abc") + 12 < 2 ^ 32
  /\ has_none underscore (lit "000000") /\ size (lit "000000") = 6
  /\ lit "000000" <> checksum6 (address_prefix (to_string 5) (lit "abc"))
  /\ ParseDepositAddress (address_prefix (to_string 5) (lit "abc") ++ lit "000000")
                         (lit "old") 99
     = Ret (mkParsed false (lit "abc") 5).
Proof.
  assert (H1 : 0 <= 5 <= 255) by lia.
  assert (H2 : lit "abc" <> []) by discriminate.
  assert (H3 : size (lit "abc") + 12 < 2 ^ 32) by (vm_compute; reflexivity).
  assert (H4 : has_none underscore (lit "000000")) by (repeat constructor).
  assert (H5 : size (lit "000000") = 6) by reflexivity.
  assert (H6 : lit "000000" <> checksum6 (address_prefix (to_string 5) (lit "abc")))
    by (vm_compute; discriminate).
  exact (conj H1 (conj H2 (conj H3 (conj H4 (conj H5 (conj H6
    (parse_failure_overwrites_outputs 5 (lit "abc") (lit "000000") (lit "old") 99
       H1 H2 H3 H4 H5 H6))))))).
Defined.

(** ** Tampering with the checksum *)

(** C5: in a generated address, putting any other character at any of the
    last six positions makes the parser reject. *)
Theorem tampered_checksum_rejected
    (N : Z) (dest a o : std_string) (n : Z) (k : nat) (c c0 : byte) :
  GenerateDepositAddress N dest = Ret a ->
  (k < 6)%nat ->
  a !! (length a - 6 + k)%nat = Some c0 -> c <> c0 ->
  exists r, ParseDepositAddress (<[(length a - 6 + k)%nat := c]> a) o n = Ret r
            /\ accepted r = false.
Proof.
  intros Ha Hk Hc0 Hc.
  rewrite Generate_shape in Ha. apply Ret_inj in Ha.
  set (P := address_prefix (to_string N) dest) in *. subst a.
  pose proof (checksum6_size P) as HC. unfold size in HC.
  assert (Hi : (length (P ++ checksum6 P) - 6 + k = length P + k)%nat)
    by (rewrite length_app; lia).
  rewrite Hi in Hc0. rewrite Hi. clear Hi.
  rewrite lookup_app_r, Nat.add_comm, Nat.add_sub in Hc0 by lia.
  rewrite insert_app_r_alt, Nat.add_comm, Nat.add_sub by lia.
  destruct (parse_returns (P ++ <[k:=c]> (checksum6 P)) o n) as (r & Hr & Hacc).
  exists r. split; [exact Hr|].
  destruct (accepted r); [|reflexivity]. exfalso.
  destruct (Hacc eq_refl) as (p & Hp).
  assert (Hlen : length p = length P).
  { apply (f_equal length) in Hp. rewrite !length_app, length_insert in Hp.
    pose proof (checksum6_size p) as Hp6. unfold size in Hp6. lia. }
  apply app_inj_1 in Hp as [-> Hp]; [|congruence].
  apply (f_equal (fun l => l !! k)) in Hp.
  rewrite list_lookup_insert_eq in Hp by lia. congruence.
Qed.

Lemma tampered_checksum_rejected_witness :
  GenerateDepositAddress 0 (lit "abc") = Ret (lit "s0_abc_f432d8")
  /\ (2 < 6)%nat
  /\ lit "s0_abc_f432d8" !! (length (lit "s0_abc_f432d8") - 6 + 2)%nat = Some "3"%byte
  /\ "_"%byte <> "3"%byte
  /\ exists r, ParseDepositAddress
                 (<[(length (lit "s0_abc_f432d8") - 6 + 2)%nat := "_"%byte]>
                    (lit "s0_abc_f432d8")) [] 0 = Ret r
               /\ accepted r = false.
Proof.
  assert (H1 : GenerateDepositAddress 0 (lit "abc") = Ret (lit "s0_abc_f432d8"))
    by (vm_compute; reflexivity).
  assert (H2 : (2 < 6)%nat) by lia.
  assert (H3 : lit "s0_abc_f432d8" !! (length (lit "s0_abc_f432d8") - 6 + 2)%nat
               = Some "3"%byte) by reflexivity.
  assert (H4 : "_"%byte <> "3"%byte) by discriminate.
  exact (conj H1 (conj H2 (conj H3 (conj H4
    (tampered_checksum_rejected 0 (lit "abc") (lit "s0_abc_f432d8") [] 0 2
       "_"%byte "3"%byte H1 H2 H3 H4))))).
Defined.

(** ** An address too long for its positions *)

Lemma to_uint_wrap (z : Z) : to_uint (z + 2 ^ 32) = to_uint z.
Proof.
  unfold to_uint, UINT_MOD. rewrite <- (Z.mul_1_l (2 ^ 32)) at 1.
  apply Z.mod_add. lia.
Qed.

(** With a destination of exactly 2^32 characters the position of the last
    underscore wraps around onto the first one, and the parser sees an
    empty destination. *)
Lemma parse_delimiter_wraps (ds dest chk o : std_string) (n : Z) :
  ds <> [] -> forallb isdigit ds = true -> digits_val ds <= ULONG_MAX ->
  to_uint (digits_val ds) <= 255 -> size ds < 2 ^ 31 ->
  size dest = 2 ^ 32 ->
  has_none underscore chk ->
  ParseDepositAddress (address_prefix ds dest ++ chk) o n
  = Ret (mkParsed false [] (to_uint (digits_val ds))).
Proof.
  intros Hne Hdig Hmax Hidx Hds Hdest Hchk.
  pose proof (size_nonneg ds) as Hs1. pose proof (size_nonneg chk) as Hs3.
  set (s := address_prefix ds dest ++ chk).
  assert (Hsize : size s = size ds + 2 ^ 32 + 3 + size chk).
  { unfold s. rewrite size_app, address_prefix_size. lia. }
  assert (Hfirst : find_first_of s underscore = 1 + size ds).
  { replace s with (("s"%byte :: ds) ++ "_"%byte :: (dest ++ ["_"%byte] ++ chk)).
    2:{ unfold s. reassoc. }
    rewrite find_first_of_app, size_cons; [reflexivity | | reflexivity].
    constructor; [reflexivity | apply digits_has_no_underscore, Hdig]. }
  assert (Hlast : find_last_of s underscore = 2 + size ds + 2 ^ 32).
  { replace s with (("s"%byte :: ds ++ "_"%byte :: dest) ++ "_"%byte :: chk).
    2:{ unfold s. reassoc. }
    rewrite find_last_of_app, size_cons, size_app, size_cons; [lia | assumption | reflexivity]. }
  unfold ParseDepositAddress. fold s.
  replace (empty s) with false by (unfold s, address_prefix; reflexivity).
  replace (front s) with "s"%byte by reflexivity.
  rewrite byte_eqb_refl. cbv beta iota zeta. cbn [negb]. cbv iota.
  rewrite Hfirst, Hlast, Hsize, to_uint_wrap.
  rewrite (to_size_t_small (1 + size ds + 1)) by lia.
  rewrite (to_uint_small (1 + size ds + 1)) by lia.
  rewrite (to_uint_small (2 + size ds)) by lia.
  rewrite (to_uint_small (2 + size ds + 1)) by lia.
  replace (2 + size ds - (1 + size ds + 1)) with 0 by lia.
  rewrite !eqb_false by (unfold npos, ULONG_MAX; lia).
  rewrite !geb_false by lia.
  cbn [orb]. cbv iota.
  replace (substr s 1 (1 + size ds + 1))
    with (Ret (ds ++ "_"%byte :: take 1 (dest ++ ["_"%byte] ++ chk))).
  2:{ symmetry.
      replace s with (["s"%byte] ++ (ds ++ "_"%byte :: (dest ++ ["_"%byte] ++ chk))).
      2:{ unfold s. reassoc. }
      change 1 with (size ["s"%byte]) at 1. rewrite substr_from by lia.
      f_equal. replace (Z.to_nat (1 + size ds + 1)) with (length ds + 2)%nat by (unfold size; lia).
      rewrite take_app_add. f_equal. }
  unfold bind at 1.
  replace (empty (ds ++ "_"%byte :: take 1 (dest ++ ["_"%byte] ++ chk))) with false
    by (destruct ds; reflexivity).
  rewrite stoul_digits by (assumption || reflexivity).
  rewrite gtb_false by lia.
  rewrite substr_Ret by lia.
  change (to_uint 0) with 0. rewrite Z.min_l by lia.
  reflexivity.
Qed.

Lemma long_destination_size : size long_destination = 2 ^ 32.
Proof.
  unfold long_destination, size. rewrite repeat_length.
  apply Z2Nat.id. lia.
Qed.

(** C1, the code at the failing input: the sidechain number 0 is in range
    and a destination of 2^32 characters is not empty, yet the address
    generated for them is rejected by the parser, which leaves an empty
    destination behind.  The position of the last underscore, found as a
    [size_t], is kept in the [unsigned int] [delim2] and wraps around onto
    the first underscore. *)
Lemma generated_long_address_rejected :
  0 <= 0 <= 255 /\ long_destination <> []
  /\ (do a <- GenerateDepositAddress 0 long_destination in
      ParseDepositAddress a [] 0)
     = Ret (mkParsed false [] 0).
Proof.
  split; [lia|]. split.
  - intros H. pose proof long_destination_size as Hs. rewrite H in Hs. discriminate Hs.
  - rewrite Generate_shape. unfold bind.
    destruct (to_string_spec 0) as (Hne & Hdig & Hval); [lia|].
    rewrite parse_delimiter_wraps.
    + rewrite Hval. reflexivity.
    + exact Hne.
    + exact Hdig.
    + rewrite Hval. discriminate.
    + rewrite Hval. discriminate.
    + pose proof (to_string_size_le 0). lia.
    + apply long_destination_size.
    + apply checksum6_no_underscore.
Qed.

(** ** The sidechain-index field *)

Lemma mem_underscore (c : byte) : mem c underscore = true -> c = "_"%byte.
Proof.
  unfold mem, underscore. simpl. rewrite orb_false_r. apply byte_eqb_eq.
Qed.

Lemma take_digits_underscore (g rest : std_string) :
  take_digits (g ++ "_"%byte :: rest) = take_digits g.
Proof.
  induction g as [|c g IH]; simpl; [reflexivity|].
  destruct (isdigit c); [rewrite IH|]; reflexivity.
Qed.

Lemma skip_space_app (f t : std_string) :
  (skip_space f = [] /\ skip_space (f ++ t) = skip_space t)
  \/ (skip_space f <> [] /\ skip_space (f ++ t) = skip_space f ++ t).
Proof.
  induction f as [|c f IH]; simpl.
  - left. auto.
  - destruct (isspace c); [exact IH|]. right. split; [discriminate | reflexivity].
Qed.

(** What follows an underscore never reaches [stoul]. *)
Lemma stoul_underscore (f rest : std_string) :
  stoul (f ++ "_"%byte :: rest) = stoul f.
Proof.
  unfold stoul.
  destruct (skip_space_app f ("_"%byte :: rest)) as [[H1 H2]|[H1 H2]]; rewrite H2.
  - rewrite H1. reflexivity.
  - destruct (skip_space f) as [|c g]; [congruence|]. clear H1 H2.
    change ((c :: g) ++ "_"%byte :: rest) with (c :: g ++ "_"%byte :: rest).
    cbv iota beta.
    destruct (uc c =? 45); [rewrite take_digits_underscore; reflexivity|].
    destruct (uc c =? 43); [rewrite take_digits_underscore; reflexivity|].
    change (c :: g ++ "_"%byte :: rest) with ((c :: g) ++ "_"%byte :: rest).
    rewrite take_digits_underscore. reflexivity.
Qed.

(** A string has no underscore, or splits at its first one. *)
Lemma first_underscore (s : std_string) :
  has_none underscore s
  \/ exists a b, s = a ++ "_"%byte :: b /\ has_none underscore a.
Proof.
  induction s as [|c s IH].
  - left. constructor.
  - destruct (mem c underscore) eqn:Hc.
    + right. exists [], s. apply mem_underscore in Hc. subst c. split; [reflexivity | constructor].
    + destruct IH as [IH|(a & b & -> & Ha)].
      * left. constructor; assumption.
      * right. exists (c :: a), b. split; [reflexivity | constructor; assumption].
Qed.

Lemma before_underscore_app (a b : std_string) :
  has_none underscore a -> before_underscore (a ++ "_"%byte :: b) = a.
Proof.
  intros Ha. induction Ha as [|c a Hc Ha IH]; [reflexivity|].
  cbn [app before_underscore]. rewrite Hc, IH. reflexivity.
Qed.

Lemma find_last_from_range (s cs : std_string) :
  forall i last, find_last_from s cs i last = last
                 \/ i <= find_last_from s cs i last < i + size s.
Proof.
  induction s as [|c s IH]; intros i last; simpl; [left; reflexivity|].
  rewrite size_cons. pose proof (size_nonneg s).
  destruct (IH (i + 1) (if mem c cs then i else last)) as [->|Hr]; [|right; lia].
  destruct (mem c cs); [right; lia | left; reflexivity].
Qed.

(** The last occurrence is not before any occurrence. *)
Lemma find_last_of_ge (a b cs : std_string) (c : byte) :
  mem c cs = true ->
  size a <= find_last_of (a ++ c :: b) cs < size (a ++ c :: b).
Proof.
  intros Hc. unfold find_last_of.
  assert (H : forall i last, i + size a <= find_last_from (a ++ c :: b) cs i last
                             < i + size (a ++ c :: b)).
  { induction a as [|x a IH]; intros i last.
    - simpl. rewrite Hc, size_nil, size_cons. pose proof (size_nonneg b).
      destruct (find_last_from_range b cs (i + 1) i) as [->|Hr]; lia.
    - simpl. rewrite !size_cons. specialize (IH (i + 1) (if mem x cs then i else last)).
      rewrite size_app, size_cons in *. lia. }
  specialize (H 0 npos). lia.
Qed.

(** ** What an accepted address looks like *)

Lemma parse_accept_facts (s o : std_string) (n : Z) (r : parsed) :
  ParseDepositAddress s o n = Ret r -> accepted r = true ->
  let delim1 := to_uint (to_size_t (find_first_of s underscore + 1)) in
  let e := to_uint (to_uint (find_last_of s underscore) + 1) in
  front s = "s"%byte /\ delim1 < size s /\ size s = e + 6
  /\ exists v, stoul (take (Z.to_nat (Z.min delim1 (size s - 1))) (drop 1 s)) = Ret v
               /\ to_uint v <= 255 /\ nSidechainOut r = to_uint v.
Proof.
  unfold ParseDepositAddress.
  destruct (empty s); [intros [=<-]; discriminate|].
  destruct (negb (byte_eqb (front s) "s"%byte)) eqn:Hfront; [intros [=<-]; discriminate|].
  apply negb_false_iff, byte_eqb_eq in Hfront.
  cbv zeta.
  set (delim1 := to_uint (to_size_t (find_first_of s underscore + 1))).
  set (delim2 := to_uint (find_last_of s underscore)).
  set (e := to_uint (delim2 + 1)).
  destruct ((delim1 =? npos) || (delim2 =? npos)); [intros [=<-]; discriminate|].
  destruct ((delim1 >=? size s) || (e >=? size s)) eqn:Hg; [intros [=<-]; discriminate|].
  apply orb_false_iff in Hg as [Hg1 Hg2].
  rewrite Z.geb_leb in Hg1, Hg2. apply Z.leb_gt in Hg1, Hg2.
  pose proof (to_uint_range (to_size_t (find_first_of s underscore + 1))) as Hd1.
  pose proof (to_uint_range (delim2 + 1)) as Hd2.
  fold delim1 in Hd1. fold e in Hd2.
  rewrite (substr_Ret s 1) by lia. unfold bind at 1.
  destruct (empty _); [intros [=<-]; discriminate|].
  change (Z.to_nat 1) with 1%nat.
  destruct (stoul _) as [v|ex|] eqn:Hv; [|intros [=<-]; discriminate|discriminate].
  destruct (to_uint v >? 255) eqn:Hrange; [intros [=<-]; discriminate|].
  rewrite (substr_Ret s delim1) by lia. unfold bind at 1.
  destruct (empty _); [intros [=<-]; discriminate|].
  rewrite (substr_Ret s 0) by lia. unfold bind at 1.
  destruct (empty _); [intros [=<-]; discriminate|].
  destruct (negb (size (address_hash _) =? 64)); [intros [=<-]; discriminate|].
  rewrite (substr_Ret s e) by lia. unfold bind at 1.
  destruct (negb (size _ =? 6)) eqn:Hsix; [intros [=<-]; discriminate|].
  rewrite checksum6_Ret. unfold bind.
  destruct (negb (string_eqb _ _)); [intros [=<-]; discriminate|].
  intros [=<-] _. cbn [nSidechainOut].
  apply negb_false_iff, Z.eqb_eq in Hsix.
  unfold size at 1 in Hsix. rewrite length_take, length_drop in Hsix.
  rewrite Z.gtb_ltb in Hrange. apply Z.ltb_ge in Hrange.
  repeat split; try assumption.
  - unfold size in *. lia.
  - exists v. auto.
Qed.

(** In an accepted address [std::stoul] succeeds on the index field, and
    the number handed back is its value brought into [unsigned int]. *)
Lemma accepted_index_field (addr o : std_string) (n : Z) (r : parsed) :
  ParseDepositAddress addr o n = Ret r -> accepted r = true ->
  exists v, stoul (index_field addr) = Ret v
            /\ to_uint v <= 255 /\ nSidechainOut r = to_uint v.
Proof.
  intros Hr Hacc.
  destruct (parse_accept_facts addr o n r Hr Hacc)
    as (Hfront & Hd1 & Hsize & v & Hv & Hrange & Hout).
  exists v. split; [|split; assumption].
  destruct addr as [|c0 t]; [discriminate|].
  simpl in Hfront. subst c0.
  unfold index_field. change (drop 1 ("s"%byte :: t)) with t in *.
  rewrite size_cons in *. pose proof (size_nonneg t) as Ht.
  destruct (first_underscore t) as [Hnone|(a & b & -> & Ha)].
  - (* no underscore at all: the field handed to [stoul] is empty *)
    unfold find_first_of in Hv. simpl find_first_from in Hv.
    rewrite find_first_from_none in Hv by assumption.
    change (to_uint (to_size_t (npos + 1))) with 0 in Hv.
    rewrite Z.min_l in Hv by lia. discriminate Hv.
  - rewrite before_underscore_app by assumption.
    pose proof (size_nonneg a) as Hsa. pose proof (size_nonneg b) as Hsb.
    assert (Hfirst : find_first_of ("s"%byte :: a ++ "_"%byte :: b) underscore
                     = 1 + size a).
    { change ("s"%byte :: a ++ "_"%byte :: b) with (("s"%byte :: a) ++ "_"%byte :: b).
      rewrite find_first_of_app, size_cons; [reflexivity | | reflexivity].
      constructor; [reflexivity | assumption]. }
    assert (Hlast : 1 + size a
                    <= find_last_of ("s"%byte :: a ++ "_"%byte :: b) underscore
                    < 1 + size (a ++ "_"%byte :: b)).
    { change ("s"%byte :: a ++ "_"%byte :: b) with (("s"%byte :: a) ++ "_"%byte :: b).
      pose proof (find_last_of_ge ("s"%byte :: a) b underscore "_"%byte eq_refl) as H.
      rewrite size_app, !size_cons in *. lia. }
    rewrite Hfirst in *. rewrite size_app, size_cons in *.
    set (last := find_last_of ("s"%byte :: a ++ "_"%byte :: b) underscore) in *.
    (* the first underscore lies below 2^32, or the six characters after
       the last one could not end the string *)
    assert (Hsmall : 1 + size a + 1 < 2 ^ 32).
    { clear Hv Hd1. unfold to_uint, UINT_MOD in Hsize.
      destruct (Z_lt_ge_dec (1 + size a + 1) (2 ^ 32)) as [|Hbig]; [assumption|].
      exfalso.
      pose proof (Z.mod_pos_bound last (2 ^ 32) ltac:(lia)) as Hm1.
      pose proof (Z.mod_pos_bound (last mod 2 ^ 32 + 1) (2 ^ 32) ltac:(lia)) as Hm2.
      assert (Hl : last = 2 ^ 32 - 1 \/ 2 ^ 32 <= last < 2 ^ 32 + 5) by lia.
      destruct Hl as [Hl|Hl].
      - rewrite Hl in Hsize.
        change ((2 ^ 32 - 1) mod 2 ^ 32 + 1) with (2 ^ 32) in Hsize.
        rewrite Z.mod_same in Hsize by lia. lia.
      - replace (last mod 2 ^ 32) with (last - 2 ^ 32) in Hsize.
        2:{ symmetry. rewrite <- (Z.mod_small (last - 2 ^ 32) (2 ^ 32)) by lia.
            rewrite <- (Z.mod_add (last - 2 ^ 32) 1 (2 ^ 32)) by lia. f_equal. lia. }
        rewrite Z.mod_small in Hsize by lia. lia. }
    rewrite (to_size_t_small (1 + size a + 1)) in * by lia.
    rewrite (to_uint_small (1 + size a + 1)) in * by lia.
    rewrite Z.min_l in Hv by lia.
    replace (Z.to_nat (1 + size a + 1)) with (length a + 2)%nat in Hv
      by (unfold size; lia).
    rewrite take_app_add in Hv. cbn [take] in Hv.
    rewrite stoul_underscore in Hv. exact Hv.
Qed.

(** C6, amended: whenever [std::stoul] fails on the characters between
    position 1 and the first underscore, because no number starts there or
    because the number exceeds the range of [unsigned long], the parser
    returns its rejection; the failure does not leave the function. *)
Theorem index_parse_failure_rejected
    (addr o : std_string) (n : Z) (e : exn) :
  stoul (index_field addr) = Throw e ->
  exists r, ParseDepositAddress addr o n = Ret r /\ accepted r = false.
Proof.
  intros Hthrow.
  destruct (parse_total addr o n) as (r & Hr). exists r. split; [exact Hr|].
  destruct (accepted r) eqn:Hacc; [|reflexivity]. exfalso.
  destruct (accepted_index_field addr o n r Hr Hacc) as (v & Hv & _).
  rewrite Hthrow in Hv. discriminate Hv.
Qed.

Lemma index_parse_failure_rejected_witness :
  stoul (index_field (lit "sx1_abc_123456")) = Throw invalid_argument
  /\ exists r, ParseDepositAddress (lit "sx1_abc_123456") [] 0 = Ret r
               /\ accepted r = false.
Proof.
  assert (H : stoul (index_field (lit "sx1_abc_123456")) = Throw invalid_argument)
    by reflexivity.
  exact (conj H (index_parse_failure_rejected (lit "sx1_abc_123456") [] 0
                   invalid_argument H)).
Defined.

(** C6 fails as stated: the field [12x] is not an unsigned decimal
    integer, yet the address is accepted, as sidechain 12. *)
Lemma index_field_counterexample :
  index_field (lit "s12x_abc_423c7c") = lit "12x"
  /\ unsigned_decimal (lit "12x") = false
  /\ ParseDepositAddress (lit "s12x_abc_423c7c") [] 0
     = Ret (mkParsed true (lit "abc") 12).
Proof. repeat split; vm_compute; reflexivity. Qed.

(** ** The range check on the sidechain number *)

Lemma parse_rejects_empty (o : std_string) (n : Z) :
  ParseDepositAddress [] o n = Ret (mkParsed false o n).
Proof. reflexivity. Qed.

Lemma parse_rejects_other_prefix (s o : std_string) (n : Z) :
  front s <> "s"%byte -> ParseDepositAddress s o n = Ret (mkParsed false o n).
Proof.
  intros H. unfold ParseDepositAddress.
  destruct (empty s); [reflexivity|].
  apply byte_eqb_neq in H. rewrite H. reflexivity.
Qed.

Lemma parse_rejects_no_underscore (s o : std_string) (n : Z) :
  has_none underscore s -> ParseDepositAddress s o n = Ret (mkParsed false o n).
Proof.
  intros H. unfold ParseDepositAddress.
  destruct (empty s) eqn:He; [reflexivity|].
  destruct (negb (byte_eqb (front s) "s"%byte)); [reflexivity|].
  unfold find_first_of, find_last_of.
  rewrite find_first_from_none, find_last_from_none by assumption.
  change (to_uint (to_size_t (npos + 1))) with 0.
  change (to_uint npos) with 4294967295.
  change (to_uint (4294967295 + 1)) with 0.
  cbv zeta. change ((0 =? npos) || (4294967295 =? npos)) with false. cbv iota.
  assert (Hs : 0 < size s).
  { destruct s; [discriminate|]. rewrite size_cons. pose proof (size_nonneg s). lia. }
  rewrite geb_false by lia. cbn [orb]. cbv iota.
  rewrite substr_Ret by lia. rewrite Z.min_l by lia. reflexivity.
Qed.

(** The number the parser hands back is never above 255. *)
Lemma parse_accepts_stored_index_in_range (s o : std_string) (n : Z) (r : parsed) :
  ParseDepositAddress s o n = Ret r -> accepted r = true ->
  0 <= nSidechainOut r <= 255.
Proof.
  intros Hr Ha.
  destruct (accepted_index_field s o n r Hr Ha) as (v & _ & Hv & ->).
  pose proof (to_uint_range v). lia.
Qed.

(** An index above 255 is rejected as long as it fits an [unsigned int]. *)
Lemma parse_rejects_index_below_wrap (addr o : std_string) (n v : Z) :
  stoul (index_field addr) = Ret v -> 255 < v < 2 ^ 32 ->
  exists r, ParseDepositAddress addr o n = Ret r /\ accepted r = false.
Proof.
  intros Hv Hrange.
  destruct (parse_total addr o n) as (r & Hr). exists r. split; [exact Hr|].
  destruct (accepted r) eqn:Hacc; [|reflexivity]. exfalso.
  destruct (accepted_index_field addr o n r Hr Hacc) as (v' & Hv' & Hle & _).
  rewrite Hv in Hv'. apply Ret_inj in Hv'. subst v'.
  rewrite to_uint_small in Hle by lia. lia.
Qed.

(** The address of the spec's example, [s256_a_] with any checksum. *)
Lemma parse_rejects_s256 (chk o : std_string) (n : Z) :
  exists r, ParseDepositAddress (lit "s256_a_" ++ chk) o n = Ret r
            /\ accepted r = false.
Proof.
  apply (parse_rejects_index_below_wrap _ o n 256); [reflexivity | lia].
Qed.

(** C7, the code at the failing input: the index field reads 4294967296,
    which is above 255, and the address is accepted all the same, as
    sidechain 0: the range check sees the number only after its
    conversion to [unsigned int]. *)
Theorem index_above_range_accepted :
  stoul (index_field (lit "s4294967296_a_ae27d2")) = Ret 4294967296
  /\ ParseDepositAddress (lit "s4294967296_a_ae27d2") [] 7
     = Ret (mkParsed true (lit "a") 0).
Proof. split; vm_compute; reflexivity. Qed.

(** ** Field encodings read back what was written *)

Lemma le_bytes_length (n : nat) (z : Z) : length (le_bytes n z) = n.
Proof. revert z. induction n as [|n IH]; intros z; simpl; [reflexivity | now rewrite IH]. Qed.

Lemma le_value_le_bytes (n : nat) (z : Z) :
  le_value (le_bytes n z) = z mod 2 ^ (8 * Z.of_nat n).
Proof.
  revert z. induction n as [|n IH]; intros z.
  - simpl. rewrite Z.mod_1_r. reflexivity.
  - cbn [le_bytes le_value]. rewrite IH, uc_chr, Z.shiftr_div_pow2 by lia.
    replace (8 * Z.of_nat (S n)) with (8 + 8 * Z.of_nat n) by lia.
    rewrite Z.pow_add_r by lia. change (2 ^ 8) with 256.
    rewrite (Z.rem_mul_r z 256 (2 ^ (8 * Z.of_nat n))) by lia. reflexivity.
Qed.

Lemma read_app (bs rest : bytes) (n : nat) :
  length bs = n -> read n (bs ++ rest) = Ret (bs, rest).
Proof.
  intros <-. unfold read.
  replace (length (bs ++ rest) <? length bs)%nat with false
    by (symmetry; apply Nat.ltb_ge; rewrite length_app; lia).
  rewrite take_app_length, drop_app_length. reflexivity.
Qed.

Lemma uint_codec_reads_back (n : nat) (z : Z) :
  0 <= z < 2 ^ (8 * Z.of_nat n) -> reads_back (uint_codec n) z.
Proof.
  intros Hz rest. cbn [uint_codec ser unser].
  rewrite read_app by apply le_bytes_length. cbn [bind].
  rewrite le_value_le_bytes, Z.mod_small by assumption. reflexivity.
Qed.

Lemma int_codec_reads_back (n : nat) (z : Z) :
  (0 < n)%nat ->
  - 2 ^ (8 * Z.of_nat n - 1) <= z < 2 ^ (8 * Z.of_nat n - 1) ->
  reads_back (int_codec n) z.
Proof.
  intros Hn Hz rest. cbn [int_codec ser unser].
  rewrite read_app by apply le_bytes_length. cbn [bind].
  rewrite le_value_le_bytes. do 2 f_equal. unfold signed.
  set (w := 8 * Z.of_nat n) in *.
  assert (Hw : 2 ^ w = 2 * 2 ^ (w - 1)).
  { rewrite <- Z.pow_succ_r by lia. f_equal. lia. }
  assert (Hp : 0 < 2 ^ (w - 1)) by (apply Z.pow_pos_nonneg; lia).
  destruct (Z_lt_ge_dec z 0) as [Hneg|Hpos].
  - replace (z mod 2 ^ w) with (z + 2 ^ w).
    2:{ rewrite <- (Z_mod_plus_full z 1 (2 ^ w)), Z.mul_1_l.
        symmetry. apply Z.mod_small. lia. }
    destruct (z + 2 ^ w >=? 2 ^ (w - 1)) eqn:E; [lia|].
    rewrite Z.geb_leb in E. apply Z.leb_gt in E. lia.
  - rewrite Z.mod_small by lia.
    destruct (z >=? 2 ^ (w - 1)) eqn:E; [|reflexivity].
    rewrite Z.geb_leb in E. apply Z.leb_le in E. lia.
Qed.

Lemma char_codec_reads_back (c : byte) : reads_back char_codec c.
Proof. intros rest. reflexivity. Qed.

Lemma ltb_false (a b : Z) : b <= a -> (a <? b) = false.
Proof. apply Z.ltb_ge. Qed.

Lemma ltb_true (a b : Z) : a < b -> (a <? b) = true.
Proof. apply Z.ltb_lt. Qed.

Lemma leb_false (a b : Z) : b < a -> (a <=? b) = false.
Proof. apply Z.leb_gt. Qed.

Lemma leb_true (a b : Z) : a <= b -> (a <=? b) = true.
Proof. apply Z.leb_le. Qed.

Lemma compact_size_reads_back (n : Z) (rest : bytes) :
  0 <= n < 2 ^ 64 ->
  ReadCompactSize (WriteCompactSize n ++ rest) = Ret (n, rest).
Proof.
  intros Hn. unfold WriteCompactSize, ReadCompactSize.
  destruct (n <? 253) eqn:E1.
  { apply Z.ltb_lt in E1. cbn [app unser char_codec bind].
    rewrite uc_chr, Z.mod_small by lia. rewrite ltb_true by lia. reflexivity. }
  apply Z.ltb_ge in E1.
  destruct (n <=? 65535) eqn:E2.
  { apply Z.leb_le in E2. cbn [app unser char_codec bind].
    rewrite uc_chr. change (253 mod 256) with 253.
    change (253 <? 253) with false. change (253 =? 253) with true. cbv iota.
    rewrite (uint_codec_reads_back 2 n) by (change (2 ^ (8 * Z.of_nat 2)) with 65536; lia).
    cbn [bind]. rewrite ltb_false by lia. reflexivity. }
  apply Z.leb_gt in E2.
  destruct (n <=? 4294967295) eqn:E3.
  { apply Z.leb_le in E3. cbn [app unser char_codec bind].
    rewrite uc_chr. change (254 mod 256) with 254.
    change (254 <? 253) with false. change (254 =? 253) with false.
    change (254 =? 254) with true. cbv iota.
    rewrite (uint_codec_reads_back 4 n) by (change (2 ^ (8 * Z.of_nat 4)) with 4294967296; lia).
    cbn [bind]. rewrite ltb_false by lia. reflexivity. }
  apply Z.leb_gt in E3.
  cbn [app unser char_codec bind].
  rewrite uc_chr. change (255 mod 256) with 255.
  change (255 <? 253) with false. change (255 =? 253) with false.
  change (255 =? 254) with false. cbv iota.
  rewrite (uint_codec_reads_back 8 n) by (change (2 ^ (8 * Z.of_nat 8)) with (2 ^ 64); lia).
  cbn [bind]. rewrite ltb_false by lia. reflexivity.
Qed.

Lemma string_codec_reads_back (s : std_string) :
  size s < 2 ^ 64 -> reads_back string_codec s.
Proof.
  intros Hs rest. cbn [string_codec ser unser].
  pose proof (size_nonneg s) as H0. pose proof (size_nonneg rest) as H1.
  rewrite <- app_assoc, compact_size_reads_back by lia. cbn [bind].
  rewrite size_app, ltb_false by lia.
  rewrite to_nat_size, take_app_length, drop_app_length. reflexivity.
Qed.

(** Reading one field off the front of a serialisation. *)
Lemma bind_reads_back {T U} (c : codec T) (x : T) (rest : bytes)
    (k : T * bytes -> outcome U) :
  reads_back c x ->
  bind (unser c (ser c x ++ rest)) k = k (x, rest).
Proof. intros H. rewrite H. reflexivity. Qed.

Lemma SidechainWT_reads_back (w : SidechainWT.t) (rest : bytes) :
  SidechainWT.valid w ->
  SidechainWT.Unserialize (SidechainWT.Serialize w ++ rest) = Ret (w, rest).
Proof.
  intros (Hd & Ha & Hf & Hh). destruct w as [op ns dest amt fee st h].
  cbn [SidechainWT.strDestination SidechainWT.amount SidechainWT.mainchainFee
       SidechainWT.hashBlindWTX] in *.
  unfold SidechainWT.Unserialize, SidechainWT.Serialize.
  cbn [SidechainWT.sidechainop SidechainWT.nSidechain SidechainWT.strDestination
       SidechainWT.amount SidechainWT.mainchainFee SidechainWT.status
       SidechainWT.hashBlindWTX].
  rewrite <- !app_assoc.
  rewrite bind_reads_back by apply char_codec_reads_back.
  rewrite bind_reads_back by apply char_codec_reads_back.
  rewrite bind_reads_back by (apply string_codec_reads_back; assumption).
  rewrite bind_reads_back by (apply int_codec_reads_back; [lia | assumption]).
  rewrite bind_reads_back by (apply int_codec_reads_back; [lia | assumption]).
  rewrite bind_reads_back by apply char_codec_reads_back.
  rewrite bind_reads_back by (apply uint_codec_reads_back; assumption).
  reflexivity.
Qed.

(** ** Scripts of sidechain objects *)

Lemma memcpy_middle (src pre mid post : bytes) :
  length mid = length src ->
  memcpy (pre ++ mid ++ post) (length pre) src = pre ++ src ++ post.
Proof.
  revert pre mid. induction src as [|b src IH]; intros pre mid Hlen.
  - destruct mid; [reflexivity | discriminate].
  - destruct mid as [|m mid]; [discriminate|]. injection Hlen as Hlen.
    cbn [memcpy].
    replace (<[length pre := b]> (pre ++ (m :: mid) ++ post))
      with ((pre ++ [b]) ++ mid ++ post).
    2:{ rewrite insert_app_r_alt, Nat.sub_diag by lia. cbn [app].
        rewrite <- app_assoc. reflexivity. }
    replace (S (length pre)) with (length (pre ++ [b])) by (rewrite length_app; simpl; lia).
    rewrite IH by assumption. rewrite <- app_assoc. reflexivity.
Qed.

Lemma memcpy_end (src pre mid : bytes) :
  length mid = length src ->
  memcpy (pre ++ mid) (length pre) src = pre ++ src.
Proof.
  intros H. pose proof (memcpy_middle src pre mid [] H) as Hm.
  rewrite !app_nil_r in Hm. exact Hm.
Qed.

Lemma drop_frame (a b c d e : byte) (l : bytes) :
  drop 5 (a :: b :: c :: d :: e :: l) = l.
Proof. reflexivity. Qed.

Section ObjectProperties.

Context {CMutableTransaction : Type}.
Variable tx_codec : codec CMutableTransaction.
Variables DB_SIDECHAIN_WT_OP DB_SIDECHAIN_WTPRIME_OP DB_SIDECHAIN_DEPOSIT_OP : byte.
Variable OP_RETURN : byte.
Variable SerializeHash : bytes -> uint256.

Lemma frame_bytes (vch : bytes) :
  memcpy (<[4%nat := chr 0x6F]> (<[3%nat := chr 0xF6]> (<[2%nat := chr 0xDC]>
           (<[1%nat := chr 0xAC]> (<[0%nat := OP_RETURN]>
              (replicate (5 + length vch) x00)))))) 5 vch
  = OP_RETURN :: xac :: xdc :: xf6 :: x6f :: vch.
Proof.
  cbn [Nat.add replicate].
  change (memcpy ([OP_RETURN; xac; xdc; xf6; x6f] ++ replicate (length vch) x00)
                 (length [OP_RETURN; xac; xdc; xf6; x6f]) vch
          = [OP_RETURN; xac; xdc; xf6; x6f] ++ vch).
  apply memcpy_end, length_replicate.
Qed.

Lemma GetScript_tagged (obj : SidechainObj CMutableTransaction) :
  distinct_tags DB_SIDECHAIN_WT_OP DB_SIDECHAIN_WTPRIME_OP
                DB_SIDECHAIN_DEPOSIT_OP ->
  well_tagged DB_SIDECHAIN_WT_OP DB_SIDECHAIN_WTPRIME_OP
              DB_SIDECHAIN_DEPOSIT_OP obj ->
  GetScript tx_codec DB_SIDECHAIN_WT_OP DB_SIDECHAIN_WTPRIME_OP
            DB_SIDECHAIN_DEPOSIT_OP OP_RETURN obj
  = Ret (OP_RETURN :: xac :: xdc :: xf6 :: x6f :: Serialize tx_codec obj).
Proof.
  intros (H12 & H13 & H23) Htag. unfold GetScript.
  destruct obj as [op|w|p|d]; cbn [well_tagged] in Htag; [contradiction| | |];
    cbn [sidechainop]; rewrite Htag.
  - rewrite byte_eqb_refl. cbn [as_WT bind app Serialize]. rewrite frame_bytes. reflexivity.
  - replace (byte_eqb DB_SIDECHAIN_WTPRIME_OP DB_SIDECHAIN_WT_OP) with false
      by (symmetry; apply byte_eqb_neq; congruence).
    rewrite byte_eqb_refl. cbn [as_WTPrime bind app Serialize].
    rewrite frame_bytes. reflexivity.
  - replace (byte_eqb DB_SIDECHAIN_DEPOSIT_OP DB_SIDECHAIN_WT_OP) with false
      by (symmetry; apply byte_eqb_neq; congruence).
    replace (byte_eqb DB_SIDECHAIN_DEPOSIT_OP DB_SIDECHAIN_WTPRIME_OP) with false
      by (symmetry; apply byte_eqb_neq; congruence).
    rewrite byte_eqb_refl. cbn [as_Deposit bind app Serialize].
    rewrite frame_bytes. reflexivity.
Qed.

(** C4: the script of an object of any of the three variants begins with
    the five header bytes, the opcode followed by AC DC F6 6F, and the
    serialisation of the object starts at byte 5. *)
Theorem script_header (obj : SidechainObj CMutableTransaction) :
  distinct_tags DB_SIDECHAIN_WT_OP DB_SIDECHAIN_WTPRIME_OP
                DB_SIDECHAIN_DEPOSIT_OP ->
  well_tagged DB_SIDECHAIN_WT_OP DB_SIDECHAIN_WTPRIME_OP
              DB_SIDECHAIN_DEPOSIT_OP obj ->
  exists s, GetScript tx_codec DB_SIDECHAIN_WT_OP DB_SIDECHAIN_WTPRIME_OP
                      DB_SIDECHAIN_DEPOSIT_OP OP_RETURN obj = Ret s
            /\ take 5 s = [OP_RETURN; xac; xdc; xf6; x6f]
            /\ drop 5 s = Serialize tx_codec obj.
Proof.
  intros Hd Ht. eexists. split; [apply GetScript_tagged; assumption|].
  split; reflexivity.
Qed.

(** C3: on the empty vector, and on any vector whose first byte is none
    of the three discriminants, the parser returns the null pointer; it
    does not throw. *)
Theorem parse_unknown_tag (vch : bytes) :
  (forall c, head vch = Some c ->
             c <> DB_SIDECHAIN_WT_OP /\ c <> DB_SIDECHAIN_WTPRIME_OP
             /\ c <> DB_SIDECHAIN_DEPOSIT_OP) ->
  ParseSidechainObj tx_codec DB_SIDECHAIN_WT_OP DB_SIDECHAIN_WTPRIME_OP
                    DB_SIDECHAIN_DEPOSIT_OP vch
  = Ret None.
Proof.
  intros H. unfold ParseSidechainObj.
  destruct vch as [|c rest]; [reflexivity|].
  destruct (H c eq_refl) as (H1 & H2 & H3).
  rewrite size_cons. pose proof (size_nonneg rest).
  rewrite eqb_false by lia. cbn [hd].
  apply byte_eqb_neq in H1, H2, H3. rewrite H1, H2, H3. reflexivity.
Qed.

(** C9: on an object whose discriminant is none of the three constants
    [GetHash] returns the default digest, all zero. *)
Theorem hash_unknown_tag (obj : SidechainObj CMutableTransaction) :
  sidechainop obj <> DB_SIDECHAIN_WT_OP ->
  sidechainop obj <> DB_SIDECHAIN_WTPRIME_OP ->
  sidechainop obj <> DB_SIDECHAIN_DEPOSIT_OP ->
  GetHash tx_codec DB_SIDECHAIN_WT_OP DB_SIDECHAIN_WTPRIME_OP
          DB_SIDECHAIN_DEPOSIT_OP SerializeHash obj
  = Ret uint256_null.
Proof.
  intros H1 H2 H3. unfold GetHash.
  apply byte_eqb_neq in H1, H2, H3. rewrite H1, H2, H3. reflexivity.
Qed.

Lemma SidechainWTPrime_reads_back (p : SidechainWTPrime CMutableTransaction)
    (rest : bytes) :
  SidechainWTPrime_valid _ tx_codec p ->
  SidechainWTPrime_Unserialize _ tx_codec (SidechainWTPrime_Serialize _ tx_codec p ++ rest)
  = Ret (p, rest).
Proof.
  intros (Htx & Hh). destruct p as [op ns tx h st].
  cbn [nHeight wtPrime] in Hh, Htx.
  unfold SidechainWTPrime_Unserialize, SidechainWTPrime_Serialize.
  cbn [wtprime_sidechainop wtprime_nSidechain wtPrime nHeight wtprime_status].
  rewrite <- !app_assoc.
  rewrite bind_reads_back by apply char_codec_reads_back.
  rewrite bind_reads_back by apply char_codec_reads_back.
  rewrite bind_reads_back by assumption.
  rewrite bind_reads_back by (apply int_codec_reads_back; [lia | assumption]).
  rewrite bind_reads_back by apply char_codec_reads_back.
  reflexivity.
Qed.

Lemma SidechainDeposit_reads_back (d : SidechainDeposit CMutableTransaction)
    (rest : bytes) :
  SidechainDeposit_valid _ tx_codec d ->
  SidechainDeposit_Unserialize _ tx_codec (SidechainDeposit_Serialize _ tx_codec d ++ rest)
  = Ret (d, rest).
Proof.
  intros (Hs & Ha & Htx & Hb & Ht & Hh). destruct d as [op ns dest amt tx burn ntx h].
  cbn [strDest amtUserPayout dtx nBurnIndex nTx hashMainchainBlock] in *.
  unfold SidechainDeposit_Unserialize, SidechainDeposit_Serialize.
  cbn [deposit_sidechainop deposit_nSidechain strDest amtUserPayout dtx
       nBurnIndex nTx hashMainchainBlock].
  rewrite <- !app_assoc.
  rewrite bind_reads_back by apply char_codec_reads_back.
  rewrite bind_reads_back by apply char_codec_reads_back.
  rewrite bind_reads_back by (apply string_codec_reads_back; assumption).
  rewrite bind_reads_back by (apply int_codec_reads_back; [lia | assumption]).
  rewrite bind_reads_back by assumption.
  rewrite bind_reads_back by (apply uint_codec_reads_back; assumption).
  rewrite bind_reads_back by (apply uint_codec_reads_back; assumption).
  rewrite bind_reads_back by (apply uint_codec_reads_back; assumption).
  reflexivity.
Qed.

(** C2: for an object of any of the three variants whose fields hold
    values of their types, parsing its script without the five header
    bytes gives back an object equal to it in every field. *)
Theorem script_round_trip (obj : SidechainObj CMutableTransaction) :
  distinct_tags DB_SIDECHAIN_WT_OP DB_SIDECHAIN_WTPRIME_OP
                DB_SIDECHAIN_DEPOSIT_OP ->
  well_tagged DB_SIDECHAIN_WT_OP DB_SIDECHAIN_WTPRIME_OP
              DB_SIDECHAIN_DEPOSIT_OP obj ->
  valid_fields tx_codec obj ->
  (do s <- GetScript tx_codec DB_SIDECHAIN_WT_OP DB_SIDECHAIN_WTPRIME_OP
                     DB_SIDECHAIN_DEPOSIT_OP OP_RETURN obj in
   ParseSidechainObj tx_codec DB_SIDECHAIN_WT_OP DB_SIDECHAIN_WTPRIME_OP
                     DB_SIDECHAIN_DEPOSIT_OP (drop 5 s))
  = Ret (Some obj).
Proof.
  intros Hd Ht Hv. rewrite GetScript_tagged by assumption.
  cbn [bind]. rewrite drop_frame. destruct Hd as (H12 & H13 & H23).
  unfold ParseSidechainObj. cbv zeta.
  destruct obj as [op|w|p|d]; cbn [well_tagged valid_fields Serialize] in *;
    [contradiction| | |].
  - destruct w as [op ns dest amt fee st h]. cbn [SidechainWT.sidechainop] in Ht. subst op.
    set (w := SidechainWT.mk _ _ _ _ _ _ _) in *.
    assert (Hsz : (size (SidechainWT.Serialize w) =? 0) = false)
      by (apply eqb_false; cbn [SidechainWT.Serialize SidechainWTPrime_Serialize
            SidechainDeposit_Serialize ser char_codec app];
          rewrite size_cons; pose proof (size_nonneg (A:=byte)); intros E;
          match type of E with 1 + size ?l = 0 => specialize (H l); lia end).
    assert (Hhd : hd x00 (SidechainWT.Serialize w) = DB_SIDECHAIN_WT_OP) by reflexivity.
    rewrite Hsz, Hhd. rewrite byte_eqb_refl.
    rewrite <- (app_nil_r (SidechainWT.Serialize w)).
    rewrite SidechainWT_reads_back by assumption. reflexivity.
  - destruct p as [op ns tx h st]. cbn [wtprime_sidechainop] in Ht. subst op.
    set (p := mkWTPrime _ _ _ _ _) in *.
    assert (Hsz : (size (SidechainWTPrime_Serialize _ tx_codec p) =? 0) = false)
      by (apply eqb_false; cbn [SidechainWT.Serialize SidechainWTPrime_Serialize
            SidechainDeposit_Serialize ser char_codec app];
          rewrite size_cons; pose proof (size_nonneg (A:=byte)); intros E;
          match type of E with 1 + size ?l = 0 => specialize (H l); lia end).
    assert (Hhd : hd x00 (SidechainWTPrime_Serialize _ tx_codec p) = DB_SIDECHAIN_WTPRIME_OP) by reflexivity.
    rewrite Hsz, Hhd.
    replace (byte_eqb DB_SIDECHAIN_WTPRIME_OP DB_SIDECHAIN_WT_OP) with false
      by (symmetry; apply byte_eqb_neq; congruence).
    rewrite byte_eqb_refl.
    rewrite <- (app_nil_r (SidechainWTPrime_Serialize _ tx_codec p)).
    rewrite SidechainWTPrime_reads_back by assumption. reflexivity.
  - destruct d as [op ns dest amt tx burn ntx h]. cbn [deposit_sidechainop] in Ht. subst op.
    set (d := mkDeposit _ _ _ _ _ _ _ _) in *.
    assert (Hsz : (size (SidechainDeposit_Serialize _ tx_codec d) =? 0) = false)
      by (apply eqb_false; cbn [SidechainWT.Serialize SidechainWTPrime_Serialize
            SidechainDeposit_Serialize ser char_codec app];
          rewrite size_cons; pose proof (size_nonneg (A:=byte)); intros E;
          match type of E with 1 + size ?l = 0 => specialize (H l); lia end).
    assert (Hhd : hd x00 (SidechainDeposit_Serialize _ tx_codec d) = DB_SIDECHAIN_DEPOSIT_OP) by reflexivity.
    rewrite Hsz, Hhd.
    replace (byte_eqb DB_SIDECHAIN_DEPOSIT_OP DB_SIDECHAIN_WT_OP) with false
      by (symmetry; apply byte_eqb_neq; congruence).
    replace (byte_eqb DB_SIDECHAIN_DEPOSIT_OP DB_SIDECHAIN_WTPRIME_OP) with false
      by (symmetry; apply byte_eqb_neq; congruence).
    rewrite byte_eqb_refl.
    rewrite <- (app_nil_r (SidechainDeposit_Serialize _ tx_codec d)).
    rewrite SidechainDeposit_reads_back by assumption. reflexivity.
Qed.

End ObjectProperties.

(** ** Selecting the unspent withdrawals *)

Lemma filter_sublist_of {A} (f : A -> bool) (l : list A) :
  sublist (List.filter f l) l.
Proof.
  induction l as [|x l IH]; simpl; [constructor|].
  destruct (f x); constructor; assumption.
Qed.

Lemma filter_snoc {A} (f : A -> bool) (l : list A) (x : A) :
  List.filter f (l ++ [x]) = List.filter f l ++ (if f x then [x] else []).
Proof. rewrite List.filter_app. simpl. destruct (f x); reflexivity. Qed.

Section SelectProperties.

Variable WT_UNSPENT : byte.
Variable moved_from : SidechainWT.t -> SidechainWT.t.

Local Abbreviation p := (spent_or_pending WT_UNSPENT).
Local Abbreviation keep := (fun wt => negb (spent_or_pending WT_UNSPENT wt)).

(** [find_if] stops at the first element the predicate holds of, or at
    [last]; the elements it passes over are kept by the filter. *)
Lemma find_if_spec (v : list SidechainWT.t) (fuel first : nat) :
  (first <= length v)%nat -> (length v - first < fuel)%nat ->
  List.filter keep (take first v) = take first v ->
  let f := find_if WT_UNSPENT fuel v first (length v) in
  (first <= f <= length v)%nat
  /\ List.filter keep (take f v) = take f v
  /\ ((f < length v)%nat -> exists x, v !! f = Some x /\ p x = true).
Proof.
  revert first. induction fuel as [|fuel IH]; intros first Hle Hfuel Hpre; [lia|].
  cbn [find_if].
  destruct (first =? length v)%nat eqn:E.
  { apply Nat.eqb_eq in E. cbv zeta.
    split; [lia|]. split; [assumption|]. intros; lia. }
  apply Nat.eqb_neq in E.
  destruct (v !! first) as [x|] eqn:Hx.
  2:{ apply lookup_ge_None in Hx. lia. }
  destruct (p x) eqn:Hp.
  { cbv zeta. split; [lia|]. split; [assumption|]. intros _. eauto. }
  specialize (IH (S first)). cbv zeta in IH.
  destruct IH as (H1 & H2 & H3); [lia | lia | |].
  { rewrite (take_S_r _ _ _ Hx), filter_snoc, Hpre, Hp. reflexivity. }
  split; [lia|]. split; assumption.
Qed.

(** The loop keeps, in front of [first], the elements of the original
    vector [v0] up to [i] that the filter keeps, and has not touched
    what lies beyond [i]. *)
Lemma remove_loop_spec (v0 : list SidechainWT.t) (fuel : nat) :
  forall (v : list SidechainWT.t) (first i : nat),
    length v = length v0 -> (first <= i)%nat -> (i < length v0)%nat ->
    (length v0 - i <= fuel)%nat ->
    take first v = List.filter keep (take (S i) v0) ->
    drop (S i) v = drop (S i) v0 ->
    let '(v', first') := remove_loop WT_UNSPENT moved_from fuel v first i (length v0) in
    take first' v' = List.filter keep v0.
Proof.
  induction fuel as [|fuel IH]; intros v first i Hlen Hfi Hi Hfuel Htake Hdrop; [lia|].
  cbn [remove_loop]. cbv zeta.
  destruct (S i =? length v0)%nat eqn:E.
  { apply Nat.eqb_eq in E. rewrite Htake, E, firstn_all. reflexivity. }
  apply Nat.eqb_neq in E.
  assert (Hlook : v !! S i = v0 !! S i).
  { rewrite <- (Nat.add_0_r (S i)), <- !lookup_drop, Hdrop. reflexivity. }
  destruct (v0 !! S i) as [x|] eqn:Hx.
  2:{ apply lookup_ge_None in Hx. lia. }
  rewrite Hlook.
  assert (Hdrop' : drop (S (S i)) v = drop (S (S i)) v0).
  { replace (S (S i)) with (S i + 1)%nat by lia.
    rewrite <- !drop_drop, Hdrop. reflexivity. }
  destruct (p x) eqn:Hp; cbn [negb].
  - apply IH; try assumption; try lia.
    rewrite (take_S_r _ _ _ Hx), filter_snoc, Hp. cbn [negb]. rewrite app_nil_r. exact Htake.
  - apply IH; try lia.
    + rewrite !length_insert. assumption.
    + rewrite take_insert_ge by lia.
      rewrite (take_S_r _ first x) by (apply list_lookup_insert_eq; lia).
      rewrite take_insert_ge by lia.
      rewrite (take_S_r _ _ _ Hx), filter_snoc, Hp. cbn [negb]. rewrite Htake. reflexivity.
    + rewrite !drop_insert_lt by lia. exact Hdrop'.
Qed.

Lemma SelectUnspentWT_filter (vWT : list SidechainWT.t) :
  SelectUnspentWT WT_UNSPENT moved_from vWT = List.filter keep vWT.
Proof.
  unfold SelectUnspentWT, remove_if, erase_to_end. cbv zeta.
  pose proof (find_if_spec vWT (S (length vWT)) 0) as Hf. cbv zeta in Hf.
  destruct Hf as (Hrange & Hkept & Hstop); [lia | lia | reflexivity |].
  set (first := find_if WT_UNSPENT (S (length vWT)) vWT 0 (length vWT)) in *.
  destruct (first =? length vWT)%nat eqn:E.
  { apply Nat.eqb_eq in E. rewrite E, firstn_all in *. congruence. }
  apply Nat.eqb_neq in E.
  destruct Hstop as (x & Hx & Hp); [lia|].
  pose proof (remove_loop_spec vWT (length vWT) vWT first first) as Hloop.
  destruct (remove_loop WT_UNSPENT moved_from (length vWT) vWT first first (length vWT))
    as [v' first'].
  apply Hloop; try lia; [|reflexivity].
  rewrite (take_S_r _ _ _ Hx), filter_snoc, Hp. cbn [negb].
  rewrite app_nil_r. symmetry. exact Hkept.
Qed.

(** C8: what [SelectUnspentWT] leaves in the vector is the elements whose
    status is [WT_UNSPENT], all of them and no others, in the order they
    had. *)
Theorem select_unspent (vWT : list SidechainWT.t) :
  let r := SelectUnspentWT WT_UNSPENT moved_from vWT in
  r = List.filter (fun wt => byte_eqb (SidechainWT.status wt) WT_UNSPENT) vWT
  /\ (forall wt, In wt r <-> In wt vWT /\ SidechainWT.status wt = WT_UNSPENT)
  /\ sublist r vWT.
Proof.
  cbv zeta. rewrite SelectUnspentWT_filter.
  assert (Heq : List.filter keep vWT
                = List.filter (fun wt => byte_eqb (SidechainWT.status wt) WT_UNSPENT) vWT).
  { apply filter_ext. intros wt. unfold spent_or_pending. apply negb_involutive. }
  rewrite Heq. split; [reflexivity|]. split.
  - intros wt. rewrite filter_In, byte_eqb_eq. reflexivity.
  - apply filter_sublist_of.
Qed.

End SelectProperties.

(** ** The statements about objects on a sample deposit *)

Lemma script_round_trip_witness :
  distinct_tags "W"%byte "P"%byte "D"%byte
  /\ well_tagged "W"%byte "P"%byte "D"%byte (Deposit sample_deposit)
  /\ valid_fields string_codec (Deposit sample_deposit)
  /\ (do s <- GetScript string_codec "W"%byte "P"%byte "D"%byte x6a
                        (Deposit sample_deposit) in
      ParseSidechainObj string_codec "W"%byte "P"%byte "D"%byte (drop 5 s))
     = Ret (Some (Deposit sample_deposit)).
Proof.
  assert (H1 : distinct_tags "W"%byte "P"%byte "D"%byte)
    by (repeat split; discriminate).
  assert (H2 : well_tagged "W"%byte "P"%byte "D"%byte (Deposit sample_deposit))
    by reflexivity.
  assert (H3 : valid_fields string_codec (Deposit sample_deposit)).
  { cbn [valid_fields]. unfold SidechainDeposit_valid, sample_deposit.
    cbn [strDest amtUserPayout dtx nBurnIndex nTx hashMainchainBlock].
    split; [vm_compute; reflexivity|]. split; [lia|].
    split; [apply string_codec_reads_back; vm_compute; reflexivity|].
    repeat split; lia. }
  exact (conj H1 (conj H2 (conj H3
    (script_round_trip string_codec "W"%byte "P"%byte "D"%byte x6a
       (Deposit sample_deposit) H1 H2 H3)))).
Defined.

Lemma script_header_witness :
  distinct_tags "W"%byte "P"%byte "D"%byte
  /\ well_tagged "W"%byte "P"%byte "D"%byte (Deposit sample_deposit)
  /\ exists s, GetScript string_codec "W"%byte "P"%byte "D"%byte x6a
                         (Deposit sample_deposit) = Ret s
               /\ take 5 s = [x6a; xac; xdc; xf6; x6f]
               /\ drop 5 s = Serialize string_codec (Deposit sample_deposit).
Proof.
  assert (H1 : distinct_tags "W"%byte "P"%byte "D"%byte)
    by (repeat split; discriminate).
  assert (H2 : well_tagged "W"%byte "P"%byte "D"%byte (Deposit sample_deposit))
    by reflexivity.
  exact (conj H1 (conj H2
    (script_header string_codec "W"%byte "P"%byte "D"%byte x6a
       (Deposit sample_deposit) H1 H2))).
Defined.

Lemma parse_unknown_tag_witness :
  (forall c, head [x00; "W"%byte] = Some c ->
             c <> "W"%byte /\ c <> "P"%byte /\ c <> "D"%byte)
  /\ ParseSidechainObj string_codec "W"%byte "P"%byte "D"%byte [x00; "W"%byte]
     = Ret None.
Proof.
  assert (H : forall c, head [x00; "W"%byte] = Some c ->
                        c <> "W"%byte /\ c <> "P"%byte /\ c <> "D"%byte)
    by (intros c [=<-]; repeat split; discriminate).
  exact (conj H
    (parse_unknown_tag string_codec "W"%byte "P"%byte "D"%byte [x00; "W"%byte] H)).
Defined.

Lemma hash_unknown_tag_witness :
  sidechainop (Base (CMutableTransaction := list byte) "x"%byte) <> "W"%byte
  /\ sidechainop (Base (CMutableTransaction := list byte) "x"%byte) <> "P"%byte
  /\ sidechainop (Base (CMutableTransaction := list byte) "x"%byte) <> "D"%byte
  /\ GetHash string_codec "W"%byte "P"%byte "D"%byte (fun _ => 1)
             (Base "x"%byte) = Ret uint256_null.
Proof.
  assert (H1 : sidechainop (Base (CMutableTransaction := list byte) "x"%byte) <> "W"%byte)
    by discriminate.
  assert (H2 : sidechainop (Base (CMutableTransaction := list byte) "x"%byte) <> "P"%byte)
    by discriminate.
  assert (H3 : sidechainop (Base (CMutableTransaction := list byte) "x"%byte) <> "D"%byte)
    by discriminate.
  exact (conj H1 (conj H2 (conj H3
    (hash_unknown_tag string_codec "W"%byte "P"%byte "D"%byte (fun _ => 1)
       (Base "x"%byte) H1 H2 H3)))).
Defined.

(** * Further properties of the address codec *)

(** A string has no underscore, or splits at its last one. *)
Lemma last_underscore (s : std_string) :
  has_none underscore s
  \/ exists a b, s = a ++ "_"%byte :: b /\ has_none underscore b.
Proof.
  induction s as [|c s IH].
  - left. constructor.
  - destruct IH as [IH|(a & b & -> & Hb)].
    + destruct (mem c underscore) eqn:Hc.
      * right. exists [], s. apply mem_underscore in Hc. subst c. auto.
      * left. constructor; assumption.
    + right. exists (c :: a), b. auto.
Qed.

(** Everything the checks establish on the way to [return true]. *)
Lemma parse_accept_outputs (s o : std_string) (n : Z) (r : parsed) :
  ParseDepositAddress s o n = Ret r -> accepted r = true ->
  let e := to_uint (to_uint (find_last_of s underscore) + 1) in
  0 < e < size s /\ size s = e + 6
  /\ strAddressOut r <> []
  /\ drop (Z.to_nat e) s = checksum6 (take (Z.to_nat e) s).
Proof.
  unfold ParseDepositAddress.
  destruct (empty s); [intros [=<-]; discriminate|].
  destruct (negb (byte_eqb (front s) "s"%byte)); [intros [=<-]; discriminate|].
  cbv zeta.
  set (delim1 := to_uint (to_size_t (find_first_of s underscore + 1))).
  set (delim2 := to_uint (find_last_of s underscore)).
  set (e := to_uint (delim2 + 1)).
  destruct ((delim1 =? npos) || (delim2 =? npos)); [intros [=<-]; discriminate|].
  destruct ((delim1 >=? size s) || (e >=? size s)) eqn:Hg; [intros [=<-]; discriminate|].
  apply orb_false_iff in Hg as [Hg1 Hg2].
  rewrite Z.geb_leb in Hg1, Hg2. apply Z.leb_gt in Hg1, Hg2.
  pose proof (to_uint_range (to_size_t (find_first_of s underscore + 1))) as Hd1.
  pose proof (to_uint_range (delim2 + 1)) as Hd2.
  fold delim1 in Hd1. fold e in Hd2.
  rewrite (substr_Ret s 1) by lia. unfold bind at 1.
  destruct (empty _); [intros [=<-]; discriminate|].
  destruct (stoul _) as [v|ex|]; [|intros [=<-]; discriminate|discriminate].
  destruct (to_uint v >? 255); [intros [=<-]; discriminate|].
  rewrite (substr_Ret s delim1) by lia. unfold bind at 1.
  destruct (empty (take _ (drop (Z.to_nat delim1) s))) eqn:Hout;
    [intros [=<-]; discriminate|].
  rewrite (substr_Ret s 0) by lia. unfold bind at 1.
  destruct (empty (take _ (drop (Z.to_nat 0) s))) eqn:Hno; [intros [=<-]; discriminate|].
  destruct (negb (size (address_hash _) =? 64)); [intros [=<-]; discriminate|].
  rewrite (substr_Ret s e) by lia. unfold bind at 1.
  destruct (negb (size _ =? 6)) eqn:Hsix; [intros [=<-]; discriminate|].
  rewrite checksum6_Ret. unfold bind.
  destruct (negb (string_eqb _ _)) eqn:Heq; [intros [=<-]; discriminate|].
  intros [=<-] _. cbn [strAddressOut].
  apply negb_false_iff, Z.eqb_eq in Hsix.
  apply negb_false_iff, string_eqb_eq in Heq.
  rewrite Z.sub_0_r, (Z.min_l e) in Hno, Heq by lia.
  rewrite (Z.min_r (size s)) in Hsix, Heq by lia.
  change (drop (Z.to_nat 0) s) with s in *.
  rewrite take_ge in Hsix, Heq by (rewrite length_drop; unfold size; lia).
  assert (He : 0 < e).
  { destruct (Z.eq_dec e 0) as [E|]; [|lia]. rewrite E in Hno. discriminate Hno. }
  split; [lia|]. split.
  { unfold size in *. rewrite length_drop in Hsix. lia. }
  split; [|exact Heq].
  intros E. rewrite E in Hout. discriminate Hout.
Qed.

(** An accepted address ends in an underscore followed by the six
    checksum characters of everything up to and including that
    underscore; the destination handed back is not empty and the
    sidechain number is at most 255. *)
Theorem accepted_address_form (addr o : std_string) (n : Z) (r : parsed) :
  ParseDepositAddress addr o n = Ret r -> accepted r = true ->
  (exists body, addr = body ++ "_"%byte :: checksum6 (body ++ ["_"%byte]))
  /\ strAddressOut r <> [] /\ 0 <= nSidechainOut r <= 255.
Proof.
  intros Hr Hacc.
  destruct (parse_accept_outputs addr o n r Hr Hacc) as (He & Hsize & Hout & Hsum).
  split; [|split; [exact Hout | eapply parse_accepts_stored_index_in_range; eassumption]].
  destruct (last_underscore addr) as [Hnone|(a & b & Hs & Hb)].
  - exfalso. unfold find_last_of in He. rewrite find_last_from_none in He by assumption.
    change (to_uint (to_uint npos + 1)) with 0 in He. lia.
  - subst addr. rewrite find_last_of_app in * by (assumption || reflexivity).
    pose proof (size_nonneg a) as Ha. pose proof (size_nonneg b) as Hb0.
    rewrite size_app, size_cons in Hsize, He.
    assert (Hsmall : size a + 1 < 2 ^ 32).
    { unfold to_uint, UINT_MOD in *.
      destruct (Z_lt_ge_dec (size a + 1) (2 ^ 32)) as [|Hbig]; [assumption|]. exfalso.
      pose proof (Z.mod_pos_bound (size a mod 2 ^ 32 + 1) (2 ^ 32) ltac:(lia)) as Hm.
      assert (Hl : size a = 2 ^ 32 - 1 \/ 2 ^ 32 <= size a < 2 ^ 32 + 5) by lia.
      destruct Hl as [Hl|Hl].
      - rewrite Hl in He. change ((2 ^ 32 - 1) mod 2 ^ 32 + 1) with (2 ^ 32) in He.
        rewrite Z.mod_same in He by lia. lia.
      - replace (size a mod 2 ^ 32) with (size a - 2 ^ 32) in Hsize.
        2:{ symmetry. rewrite <- (Z.mod_small (size a - 2 ^ 32) (2 ^ 32)) by lia.
            rewrite <- (Z.mod_add (size a - 2 ^ 32) 1 (2 ^ 32)) by lia. f_equal. lia. }
        rewrite Z.mod_small in Hsize by lia. lia. }
    rewrite (to_uint_small (size a)) in * by lia.
    rewrite (to_uint_small (size a + 1)) in * by lia.
    replace (Z.to_nat (size a + 1)) with (length (a ++ ["_"%byte])) in Hsum
      by (rewrite length_app; unfold size; simpl; lia).
    replace (a ++ "_"%byte :: b) with ((a ++ ["_"%byte]) ++ b) in Hsum
      by (rewrite <- app_assoc; reflexivity).
    rewrite drop_app_length, take_app_length in Hsum.
    exists a. rewrite Hsum. reflexivity.
Qed.

Lemma accepted_address_form_witness :
  ParseDepositAddress (lit "s0_abc_f432d8") [] 9
  = Ret (mkParsed true (lit "abc") 0)
  /\ accepted (mkParsed true (lit "abc") 0) = true
  /\ (exists body, lit "s0_abc_f432d8"
                   = body ++ "_"%byte :: checksum6 (body ++ ["_"%byte]))
  /\ strAddressOut (mkParsed true (lit "abc") 0) <> []
  /\ 0 <= nSidechainOut (mkParsed true (lit "abc") 0) <= 255.
Proof.
  assert (H1 : ParseDepositAddress (lit "s0_abc_f432d8") [] 9
               = Ret (mkParsed true (lit "abc") 0)) by (vm_compute; reflexivity).
  assert (H2 : accepted (mkParsed true (lit "abc") 0) = true) by reflexivity.
  exact (conj H1 (conj H2
    (accepted_address_form (lit "s0_abc_f432d8") [] 9 _ H1 H2))).
Defined.

(** Called with a destination string that is another object than the
    address, [ParseDepositAddress] returns on every address: the positions
    it hands to [substr] are within the address and what [std::stoul]
    throws is caught. *)
Theorem ParseDepositAddress_never_throws (addr o : std_string) (n : Z) :
  exists r, ParseDepositAddress addr o n = Ret r.
Proof.
  destruct (parse_returns addr o n) as (r & Hr & _). exists r. exact Hr.
Qed.

(** ** One string for the address and the destination *)

(** Once the destination has replaced the address, the position after the
    last underscore lies beyond the end of the string. *)
Lemma aliased_shape (ds dest chk : std_string) (n : Z) :
  ds <> [] -> forallb isdigit ds = true -> digits_val ds <= ULONG_MAX ->
  to_uint (digits_val ds) <= 255 ->
  dest <> [] ->
  has_none underscore chk -> chk <> [] ->
  size (address_prefix ds dest) < 2 ^ 32 ->
  ParseDepositAddress_aliased (address_prefix ds dest ++ chk) n
  = Throw out_of_range.
Proof.
  intros Hne Hdig Hmax Hidx Hdest Hchk Hsz Hlen.
  pose proof (size_nonneg ds) as Hs1. pose proof (size_nonneg dest) as Hs2.
  assert (Hdne : 0 < size dest).
  { destruct dest; [congruence|]. rewrite size_cons. pose proof (size_nonneg dest). lia. }
  assert (Hcne : 0 < size chk).
  { destruct chk; [congruence|]. rewrite size_cons. pose proof (size_nonneg chk). lia. }
  rewrite address_prefix_size in Hlen.
  set (s := address_prefix ds dest ++ chk).
  assert (Hsize : size s = size ds + size dest + 3 + size chk).
  { unfold s. rewrite size_app, address_prefix_size. lia. }
  assert (Hfirst : find_first_of s underscore = 1 + size ds).
  { replace s with (("s"%byte :: ds) ++ "_"%byte :: (dest ++ ["_"%byte] ++ chk)).
    2:{ unfold s. reassoc. }
    rewrite find_first_of_app, size_cons; [reflexivity | | reflexivity].
    constructor; [reflexivity | apply digits_has_no_underscore, Hdig]. }
  assert (Hlast : find_last_of s underscore = 2 + size ds + size dest).
  { replace s with (("s"%byte :: ds ++ "_"%byte :: dest) ++ "_"%byte :: chk).
    2:{ unfold s. reassoc. }
    rewrite find_last_of_app, size_cons, size_app, size_cons; [lia | assumption | reflexivity]. }
  unfold ParseDepositAddress_aliased. fold s.
  replace (empty s) with false by (unfold s, address_prefix; reflexivity).
  replace (front s) with "s"%byte by reflexivity.
  rewrite byte_eqb_refl. cbv beta iota zeta. cbn [negb]. cbv iota.
  rewrite Hfirst, Hlast, Hsize.
  rewrite (to_size_t_small (1 + size ds + 1)) by lia.
  rewrite (to_uint_small (1 + size ds + 1)) by lia.
  rewrite (to_uint_small (2 + size ds + size dest)) by lia.
  rewrite (to_uint_small (2 + size ds + size dest + 1)) by lia.
  replace (2 + size ds + size dest - (1 + size ds + 1)) with (size dest) by lia.
  rewrite (to_uint_small (size dest)) by lia.
  rewrite !eqb_false by (unfold npos, ULONG_MAX; lia).
  rewrite !geb_false by lia.
  cbn [orb]. cbv iota.
  (* strSidechain *)
  replace (substr s 1 (1 + size ds + 1))
    with (Ret (ds ++ "_"%byte :: take 1 (dest ++ ["_"%byte] ++ chk))).
  2:{ symmetry.
      replace s with (["s"%byte] ++ (ds ++ "_"%byte :: (dest ++ ["_"%byte] ++ chk))).
      2:{ unfold s. reassoc. }
      change 1 with (size ["s"%byte]) at 1. rewrite substr_from by lia.
      f_equal. replace (Z.to_nat (1 + size ds + 1)) with (length ds + 2)%nat by (unfold size; lia).
      rewrite take_app_add. f_equal. }
  unfold bind at 1.
  replace (empty (ds ++ "_"%byte :: take 1 (dest ++ ["_"%byte] ++ chk))) with false
    by (destruct ds; reflexivity).
  rewrite stoul_digits by (assumption || reflexivity).
  rewrite gtb_false by lia.
  (* the string is replaced by the destination *)
  replace (substr s (1 + size ds + 1) (size dest)) with (Ret dest).
  2:{ symmetry.
      replace s with (("s"%byte :: ds ++ ["_"%byte]) ++ dest ++ ("_"%byte :: chk)).
      2:{ unfold s. reassoc. }
      replace (1 + size ds + 1) with (size ("s"%byte :: ds ++ ["_"%byte])).
      2:{ rewrite size_cons, size_app, size_cons, size_nil. lia. }
      apply substr_middle. reflexivity. }
  unfold bind at 1.
  replace (empty dest) with false by (destruct dest; [congruence | reflexivity]).
  (* strNoCheck is read from the destination *)
  replace (substr dest 0 (2 + size ds + size dest + 1)) with (Ret dest).
  2:{ symmetry. rewrite substr_Ret by lia. f_equal.
      rewrite Z.min_r by lia. rewrite Z.sub_0_r, to_nat_size.
      change (Z.to_nat 0) with 0%nat. rewrite drop_0. apply take_ge. lia. }
  unfold bind at 1.
  replace (empty dest) with false by (destruct dest; [congruence | reflexivity]).
  rewrite address_hash_size. change (64 =? 64) with true. cbn [negb]. cbv iota.
  (* strCheck starts beyond the end of the destination *)
  unfold substr at 1.
  replace (2 + size ds + size dest + 1 >? size dest) with true
    by (symmetry; apply Z.gtb_lt; lia).
  reflexivity.
Qed.

(** Called with one string as the address and the destination,
    [ParseDepositAddress] does not return on a generated address: for
    every sidechain number in [0,255] and every non-empty destination of
    fewer than 2^32 - 6 characters, [substr] throws [std::out_of_range]
    where the checksum is read, outside the [try] block. *)
Theorem aliased_round_trip_throws (N : Z) (dest : std_string) (n : Z) :
  0 <= N <= 255 -> dest <> [] -> size dest + 6 < 2 ^ 32 ->
  (do a <- GenerateDepositAddress N dest in ParseDepositAddress_aliased a n)
  = Throw out_of_range.
Proof.
  intros HN Hdest Hlen.
  destruct (to_string_spec N) as (Hne & Hdig & Hval); [lia|].
  pose proof (to_string_size_le N HN) as Hds.
  rewrite Generate_shape. unfold bind.
  apply aliased_shape; try assumption.
  - rewrite Hval. unfold ULONG_MAX. lia.
  - rewrite Hval, to_uint_small by lia. lia.
  - apply checksum6_no_underscore.
  - intros H. pose proof (checksum6_size (address_prefix (to_string N) dest)) as H6.
    rewrite H in H6. discriminate H6.
  - rewrite address_prefix_size. lia.
Qed.

Lemma aliased_round_trip_throws_witness :
  0 <= 0 <= 255 /\ lit "abc" <> [] /\ size (lit "abc") + 6 < 2 ^ 32
  /\ GenerateDepositAddress 0 (lit "abc") = Ret (lit "s0_abc_f432d8")
  /\ (do a <- GenerateDepositAddress 0 (lit "abc") in
      ParseDepositAddress_aliased a 99)
     = Throw out_of_range.
Proof.
  assert (H1 : 0 <= 0 <= 255) by lia.
  assert (H2 : lit "abc" <> []) by discriminate.
  assert (H3 : size (lit "abc") + 6 < 2 ^ 32) by (vm_compute; reflexivity).
  assert (H4 : GenerateDepositAddress 0 (lit "abc") = Ret (lit "s0_abc_f432d8"))
    by (vm_compute; reflexivity).
  exact (conj H1 (conj H2 (conj H3 (conj H4
           (aliased_round_trip_throws 0 (lit "abc") 99 H1 H2 H3))))).
Defined.

(** ** What the generator writes *)

Lemma hexdigit_lower_hex (b : byte) :
  is_lower_hex (hexdigit (Z.shiftr (uc b) 4)) = true
  /\ is_lower_hex (hexdigit (Z.land (uc b) 15)) = true.
Proof. destruct b; split; reflexivity. Qed.

Lemma HexStr_lower_hex (v : bytes) : forallb is_lower_hex (HexStr v) = true.
Proof.
  induction v as [|b v IH]; [reflexivity|].
  cbn [HexStr forallb]. destruct (hexdigit_lower_hex b) as [-> ->]. exact IH.
Qed.

Lemma forallb_take {A} (f : A -> bool) (l : list A) (k : nat) :
  forallb f l = true -> forallb f (take k l) = true.
Proof.
  revert k. induction l as [|x l IH]; intros [|k] H; try reflexivity.
  cbn [take forallb] in *. apply andb_true_iff in H as [-> H]. apply IH, H.
Qed.

(** The generator never throws, and what it returns is the letter [s], the
    decimal sidechain number, an underscore, the destination unchanged,
    an underscore, and six lowercase hexadecimal characters. *)
Theorem generated_address_format (N : Z) (dest : std_string) :
  exists chk,
    GenerateDepositAddress N dest
    = Ret (lit "s" ++ to_string N ++ lit "_" ++ dest ++ lit "_" ++ chk)
    /\ length chk = 6%nat /\ forallb is_lower_hex chk = true.
Proof.
  exists (checksum6 (address_prefix (to_string N) dest)).
  split; [|split].
  - rewrite Generate_shape. f_equal. reassoc.
  - pose proof (checksum6_size (address_prefix (to_string N) dest)) as H.
    unfold size in H. lia.
  - apply forallb_take, HexStr_lower_hex.
Qed.

(** Two strings that split at their first underscore split alike. *)
Lemma first_split_unique (a a' b b' : std_string) :
  has_none underscore a -> has_none underscore a' ->
  a ++ "_"%byte :: b = a' ++ "_"%byte :: b' -> a = a' /\ b = b'.
Proof.
  intros Ha. revert a'. induction Ha as [|x a Hx Ha IH]; intros a' Ha' Heq.
  - destruct Ha' as [|y a' Hy Ha']; [injection Heq as <-; auto|].
    injection Heq as <- _. discriminate Hy.
  - destruct Ha' as [|y a' Hy Ha'].
    + injection Heq as -> _. discriminate Hx.
    + injection Heq as -> Heq. destruct (IH a' Ha' Heq) as [-> ->]. auto.
Qed.

(** The generator is injective: an address comes from one sidechain number
    and one destination only. *)
Theorem generated_address_injective (N N' : Z) (dest dest' : std_string) :
  0 <= N -> 0 <= N' ->
  GenerateDepositAddress N dest = GenerateDepositAddress N' dest' ->
  N = N' /\ dest = dest'.
Proof.
  intros HN HN' Heq. rewrite !Generate_shape in Heq. apply Ret_inj in Heq.
  apply app_inj_2 in Heq as [Hp _].
  2:{ pose proof (checksum6_size (address_prefix (to_string N) dest)) as H1.
      pose proof (checksum6_size (address_prefix (to_string N') dest')) as H2.
      unfold size in *. lia. }
  destruct (to_string_spec N HN) as (_ & Hd & Hv).
  destruct (to_string_spec N' HN') as (_ & Hd' & Hv').
  unfold address_prefix in Hp. injection Hp as Hp.
  apply first_split_unique in Hp as [Hds Hrest];
    try (apply digits_has_no_underscore; assumption).
  split; [congruence|].
  apply app_inj_2 in Hrest as [Hdest _]; [exact Hdest | reflexivity].
Qed.

Lemma generated_address_injective_witness :
  0 <= 3 /\ 0 <= 3
  /\ GenerateDepositAddress 3 (lit "a_b") = GenerateDepositAddress 3 (lit "a_b")
  /\ 3 = 3 /\ lit "a_b" = lit "a_b".
Proof.
  assert (H1 : 0 <= 3) by lia.
  assert (H2 : GenerateDepositAddress 3 (lit "a_b")
               = GenerateDepositAddress 3 (lit "a_b")) by reflexivity.
  exact (conj H1 (conj H1 (conj H2
    (generated_address_injective 3 3 (lit "a_b") (lit "a_b") H1 H1 H2)))).
Defined.

(** ** Addresses of other shapes *)

(** The steps every address [s<digits>_...] goes through up to the range
    check, given where its last underscore is. *)
Lemma parse_to_index (ds rest o : std_string) (n last : Z) :
  ds <> [] -> forallb isdigit ds = true -> digits_val ds <= ULONG_MAX ->
  let s := "s"%byte :: ds ++ "_"%byte :: rest in
  find_last_of s underscore = last ->
  1 + size ds <= last -> last + 1 < size s -> size s < 2 ^ 32 ->
  ParseDepositAddress s o n
  = let v := to_uint (digits_val ds) in
    if v >? 255 then Ret (mkParsed false o v)
    else
      do out <- substr s (2 + size ds) (to_uint (last - (2 + size ds))) in
      if empty out then Ret (mkParsed false out v)
      else
        do nocheck <- substr s 0 (last + 1) in
        if empty nocheck then Ret (mkParsed false out v)
        else
          do chk <- substr s (last + 1) (size s) in
          if negb (size chk =? 6) then Ret (mkParsed false out v)
          else if negb (string_eqb chk (checksum6 nocheck))
               then Ret (mkParsed false out v)
               else Ret (mkParsed true out v).
Proof.
  intros Hne Hdig Hmax s Hlast Hl1 Hl2 Hlen.
  pose proof (size_nonneg ds) as Hs1. pose proof (size_nonneg rest) as Hs2.
  assert (Hsize : size s = size ds + size rest + 2).
  { unfold s. rewrite size_cons, size_app, size_cons. lia. }
  assert (Hfirst : find_first_of s underscore = 1 + size ds).
  { unfold s. change ("s"%byte :: ds ++ "_"%byte :: rest)
      with (("s"%byte :: ds) ++ "_"%byte :: rest).
    rewrite find_first_of_app, size_cons; [reflexivity | | reflexivity].
    constructor; [reflexivity | apply digits_has_no_underscore, Hdig]. }
  unfold ParseDepositAddress. fold s.
  replace (empty s) with false by reflexivity.
  replace (front s) with "s"%byte by reflexivity.
  rewrite byte_eqb_refl. cbv beta iota zeta. cbn [negb]. cbv iota.
  rewrite Hfirst, Hlast.
  rewrite (to_size_t_small (1 + size ds + 1)) by lia.
  rewrite (to_uint_small (1 + size ds + 1)) by lia.
  rewrite (to_uint_small last) by lia.
  rewrite (to_uint_small (last + 1)) by lia.
  rewrite !eqb_false by (unfold npos, ULONG_MAX; lia).
  rewrite !geb_false by lia.
  cbn [orb]. cbv iota.
  replace (substr s 1 (1 + size ds + 1))
    with (Ret (ds ++ "_"%byte :: take 1 rest)).
  2:{ symmetry. unfold s.
      change ("s"%byte :: ds ++ "_"%byte :: rest)
        with (["s"%byte] ++ (ds ++ "_"%byte :: rest)).
      change 1 with (size ["s"%byte]) at 1. rewrite substr_from by lia.
      f_equal.
      replace (Z.to_nat (1 + size ds + 1)) with (length ds + 2)%nat
        by (unfold size; lia).
      rewrite take_app_add. reflexivity. }
  unfold bind at 1.
  replace (empty (ds ++ "_"%byte :: take 1 rest)) with false
    by (destruct ds; reflexivity).
  rewrite stoul_digits by (assumption || reflexivity).
  replace (1 + size ds + 1) with (2 + size ds) by lia.
  destruct (to_uint (digits_val ds) >? 255); [reflexivity|].
  destruct (substr s (2 + size ds) _) as [out| |]; [|reflexivity|reflexivity].
  cbn [bind]. destruct (empty out); [reflexivity|].
  destruct (substr s 0 (last + 1)) as [nocheck| |]; [|reflexivity|reflexivity].
  cbn [bind]. destruct (empty nocheck); [reflexivity|].
  rewrite address_hash_size. change (64 =? 64) with true. cbn [negb]. cbv iota.
  destruct (substr s (last + 1) (size s)) as [chk| |]; [|reflexivity|reflexivity].
  cbn [bind]. destruct (negb (size chk =? 6)); [reflexivity|].
  rewrite checksum6_Ret. reflexivity.
Qed.

(** An empty destination: the generator writes an address for it, the
    parser rejects that address, having by then overwritten the sidechain
    number with the parsed one and the destination with the empty
    string. *)
Theorem empty_destination_rejected (N : Z) (o : std_string) (n : Z) :
  0 <= N <= 255 ->
  (do a <- GenerateDepositAddress N [] in ParseDepositAddress a o n)
  = Ret (mkParsed false [] N).
Proof.
  intros HN.
  destruct (to_string_spec N) as (Hne & Hdig & Hval); [lia|].
  pose proof (to_string_size_le N HN) as Hds.
  pose proof (size_nonneg (to_string N)) as Hs.
  rewrite Generate_shape. cbn [bind].
  set (ds := to_string N) in *.
  set (chk := checksum6 (address_prefix ds [])).
  pose proof (checksum6_size (address_prefix ds [])) as Hchk. fold chk in Hchk.
  replace (address_prefix ds [] ++ chk)
    with ("s"%byte :: ds ++ "_"%byte :: "_"%byte :: chk) by reassoc.
  assert (Hlast : find_last_of ("s"%byte :: ds ++ "_"%byte :: "_"%byte :: chk) underscore
                  = 2 + size ds).
  { replace ("s"%byte :: ds ++ "_"%byte :: "_"%byte :: chk)
      with (("s"%byte :: ds ++ ["_"%byte]) ++ "_"%byte :: chk) by reassoc.
    rewrite find_last_of_app, size_cons, size_app, size_cons, size_nil;
      [lia | apply checksum6_no_underscore | reflexivity]. }
  rewrite (parse_to_index ds ("_"%byte :: chk) o n (2 + size ds));
    try assumption; try lia.
  2:{ rewrite Hval. unfold ULONG_MAX. lia. }
  2,3: rewrite size_cons, size_app, !size_cons, Hchk; lia.
  cbv zeta. rewrite Hval, to_uint_small by lia.
  rewrite gtb_false by lia.
  replace (2 + size ds - (2 + size ds)) with 0 by lia.
  rewrite substr_Ret by (rewrite size_cons, size_app, !size_cons, Hchk; lia).
  change (to_uint 0) with 0. rewrite Z.min_l.
  2:{ rewrite size_cons, size_app, !size_cons, Hchk. lia. }
  reflexivity.
Qed.

Lemma empty_destination_rejected_witness :
  0 <= 5 <= 255
  /\ (do a <- GenerateDepositAddress 5 [] in
      ParseDepositAddress a (lit "old") 99)
     = Ret (mkParsed false [] 5).
Proof.
  assert (H : 0 <= 5 <= 255) by lia.
  exact (conj H (empty_destination_rejected 5 (lit "old") 99 H)).
Defined.

(** An address with a single underscore is not rejected for it: when the
    six characters after the underscore are the checksum of what precedes
    them, the address is accepted and those six characters are handed
    back as the destination. *)
Theorem single_underscore_accepted (N : Z) (o : std_string) (n : Z) :
  0 <= N <= 255 ->
  let head := lit "s" ++ to_string N ++ lit "_" in
  ParseDepositAddress (head ++ checksum6 head) o n
  = Ret (mkParsed true (checksum6 head) N).
Proof.
  intros HN head.
  destruct (to_string_spec N) as (Hne & Hdig & Hval); [lia|].
  pose proof (to_string_size_le N HN) as Hds.
  pose proof (size_nonneg (to_string N)) as Hs.
  set (ds := to_string N) in *. set (chk := checksum6 head).
  pose proof (checksum6_size head) as Hchk. fold chk in Hchk.
  assert (Hhead : head = "s"%byte :: ds ++ ["_"%byte]) by reflexivity.
  assert (Hhsize : size head = size ds + 2).
  { rewrite Hhead, size_cons, size_app, size_cons, size_nil. lia. }
  assert (Haddr : head ++ chk = "s"%byte :: ds ++ "_"%byte :: chk).
  { rewrite Hhead. reassoc. }
  assert (Hlast : find_last_of (head ++ chk) underscore = 1 + size ds).
  { rewrite Haddr.
    change ("s"%byte :: ds ++ "_"%byte :: chk) with (("s"%byte :: ds) ++ "_"%byte :: chk).
    rewrite find_last_of_app, size_cons;
      [lia | apply checksum6_no_underscore | reflexivity]. }
  rewrite Haddr in Hlast |- *.
  rewrite (parse_to_index ds chk o n (1 + size ds)); try assumption; try lia.
  2:{ rewrite Hval. unfold ULONG_MAX. lia. }
  2,3: rewrite size_cons, size_app, size_cons, Hchk; lia.
  cbv zeta. rewrite Hval, to_uint_small by lia.
  rewrite gtb_false by lia.
  replace (1 + size ds - (2 + size ds)) with (-1) by lia.
  change (to_uint (-1)) with 4294967295.
  rewrite <- Haddr.
  replace (2 + size ds) with (size head) by lia.
  replace (1 + size ds + 1) with (size head) by lia.
  rewrite substr_suffix by lia. cbn [bind].
  replace (empty chk) with false by (destruct chk; [discriminate Hchk | reflexivity]).
  rewrite substr_prefix by reflexivity. cbn [bind].
  replace (empty head) with false by reflexivity.
  rewrite substr_suffix by (rewrite size_app; lia). cbn [bind].
  rewrite Hchk. change (6 =? 6) with true. cbn [negb]. cbv iota.
  fold chk. rewrite string_eqb_refl. reflexivity.
Qed.

Lemma single_underscore_accepted_witness :
  0 <= 5 <= 255
  /\ ParseDepositAddress
       ((lit "s" ++ to_string 5 ++ lit "_")
        ++ checksum6 (lit "s" ++ to_string 5 ++ lit "_")) [] 0
     = Ret (mkParsed true (checksum6 (lit "s" ++ to_string 5 ++ lit "_")) 5).
Proof.
  assert (H : 0 <= 5 <= 255) by lia.
  exact (conj H (single_underscore_accepted 5 [] 0 H)).
Defined.

(** An address shorter than 2^32 characters that is made of [s], a run of
    digits whose number lies between 256 and 2^32 - 1, an underscore, any
    destination, a second underscore and a non-empty tail without
    underscore, is rejected after the number has been stored: the number
    parameter holds it, the destination parameter is untouched. *)
Theorem out_of_range_index_stored
    (ds dest chk o : std_string) (n : Z) :
  ds <> [] -> forallb isdigit ds = true ->
  255 < digits_val ds < 2 ^ 32 ->
  has_none underscore chk -> chk <> [] ->
  size (address_prefix ds dest ++ chk) < 2 ^ 32 ->
  ParseDepositAddress (address_prefix ds dest ++ chk) o n
  = Ret (mkParsed false o (digits_val ds)).
Proof.
  intros Hne Hdig Hv Hchk Hchk0 Hlen.
  pose proof (size_nonneg ds) as Hs1. pose proof (size_nonneg dest) as Hs2.
  assert (Hc : 0 < size chk).
  { destruct chk; [congruence|]. rewrite size_cons. pose proof (size_nonneg chk). lia. }
  rewrite size_app, address_prefix_size in Hlen.
  replace (address_prefix ds dest ++ chk)
    with ("s"%byte :: ds ++ "_"%byte :: (dest ++ "_"%byte :: chk)) by reassoc.
  assert (Hlast : find_last_of ("s"%byte :: ds ++ "_"%byte :: (dest ++ "_"%byte :: chk))
                               underscore = 2 + size ds + size dest).
  { replace ("s"%byte :: ds ++ "_"%byte :: (dest ++ "_"%byte :: chk))
      with (("s"%byte :: ds ++ "_"%byte :: dest) ++ "_"%byte :: chk) by reassoc.
    rewrite find_last_of_app, size_cons, size_app, size_cons;
      [lia | assumption | reflexivity]. }
  rewrite (parse_to_index ds (dest ++ "_"%byte :: chk) o n (2 + size ds + size dest));
    try assumption; try lia.
  2:{ unfold ULONG_MAX. lia. }
  2,3: rewrite size_cons, size_app, size_cons, size_app, size_cons; lia.
  cbv zeta. rewrite to_uint_small by lia.
  replace (digits_val ds >? 255) with true by (symmetry; apply Z.gtb_lt; lia).
  reflexivity.
Qed.

Lemma out_of_range_index_stored_witness :
  lit "256" <> [] /\ forallb isdigit (lit "256") = true
  /\ 255 < digits_val (lit "256") < 2 ^ 32
  /\ has_none underscore (lit "abcdef") /\ lit "abcdef" <> []
  /\ size (address_prefix (lit "256") (lit "a") ++ lit "abcdef") < 2 ^ 32
  /\ ParseDepositAddress (address_prefix (lit "256") (lit "a") ++ lit "abcdef")
                         (lit "old") 99
     = Ret (mkParsed false (lit "old") (digits_val (lit "256"))).
Proof.
  assert (H1 : lit "256" <> []) by discriminate.
  assert (H2 : forallb isdigit (lit "256") = true) by reflexivity.
  assert (H3 : 255 < digits_val (lit "256") < 2 ^ 32) by (vm_compute; split; reflexivity).
  assert (H4 : has_none underscore (lit "abcdef")) by (repeat constructor).
  assert (H5 : lit "abcdef" <> []) by discriminate.
  assert (H6 : size (address_prefix (lit "256") (lit "a") ++ lit "abcdef") < 2 ^ 32)
    by (vm_compute; reflexivity).
  exact (conj H1 (conj H2 (conj H3 (conj H4 (conj H5 (conj H6
    (out_of_range_index_stored (lit "256") (lit "a") (lit "abcdef") (lit "old") 99
       H1 H2 H3 H4 H5 H6))))))).
Defined.

(** The parser takes as the index field any run of digits, leading zeros
    included, whose number fits an [unsigned long] (is at most 2^64 - 1),
    and reads it modulo 2^32: an address shorter than 2^32 characters made
    of [s], such a run, an underscore, a non-empty destination, a second
    underscore and the right checksum is accepted whenever the reduced
    number is at most 255, and that is the number reported. *)
Theorem index_read_modulo (ds dest o : std_string) (n : Z) :
  ds <> [] -> forallb isdigit ds = true -> digits_val ds <= ULONG_MAX ->
  to_uint (digits_val ds) <= 255 -> dest <> [] ->
  size (address_prefix ds dest) + 6 < 2 ^ 32 ->
  ParseDepositAddress (address_prefix ds dest ++ checksum6 (address_prefix ds dest)) o n
  = Ret (mkParsed true dest (to_uint (digits_val ds))).
Proof.
  intros Hne Hdig Hmax Hidx Hdest Hlen.
  rewrite parse_shape; try assumption.
  - rewrite string_eqb_refl. reflexivity.
  - apply checksum6_no_underscore.
  - apply checksum6_size.
  - rewrite size_app, checksum6_size. lia.
Qed.

Lemma index_read_modulo_witness :
  lit "004294967301" <> [] /\ forallb isdigit (lit "004294967301") = true
  /\ digits_val (lit "004294967301") <= ULONG_MAX
  /\ to_uint (digits_val (lit "004294967301")) <= 255 /\ lit "abc" <> []
  /\ size (address_prefix (lit "004294967301") (lit "abc")) + 6 < 2 ^ 32
  /\ ParseDepositAddress
       (address_prefix (lit "004294967301") (lit "abc")
        ++ checksum6 (address_prefix (lit "004294967301") (lit "abc"))) [] 0
     = Ret (mkParsed true (lit "abc") (to_uint (digits_val (lit "004294967301")))).
Proof.
  assert (H1 : lit "004294967301" <> []) by discriminate.
  assert (H2 : forallb isdigit (lit "004294967301") = true) by reflexivity.
  assert (H3 : digits_val (lit "004294967301") <= ULONG_MAX) by (vm_compute; discriminate).
  assert (H4 : to_uint (digits_val (lit "004294967301")) <= 255)
    by (vm_compute; discriminate).
  assert (H5 : lit "abc" <> []) by discriminate.
  assert (H6 : size (address_prefix (lit "004294967301") (lit "abc")) + 6 < 2 ^ 32)
    by (vm_compute; reflexivity).
  exact (conj H1 (conj H2 (conj H3 (conj H4 (conj H5 (conj H6
    (index_read_modulo (lit "004294967301") (lit "abc") [] 0 H1 H2 H3 H4 H5 H6))))))).
Defined.

(** The rejections that come before the index is read leave both
    reference parameters as they were: the empty string, a string that
    does not start with [s], a string without an underscore. *)
Theorem early_rejection_keeps_outputs (addr o : std_string) (n : Z) :
  addr = [] \/ front addr <> "s"%byte \/ has_none underscore addr ->
  ParseDepositAddress addr o n = Ret (mkParsed false o n).
Proof.
  intros [->|[H|H]].
  - apply parse_rejects_empty.
  - apply parse_rejects_other_prefix, H.
  - apply parse_rejects_no_underscore, H.
Qed.

Lemma early_rejection_keeps_outputs_witness :
  (lit "x1_a_abcdef" = [] \/ front (lit "x1_a_abcdef") <> "s"%byte
   \/ has_none underscore (lit "x1_a_abcdef"))
  /\ ParseDepositAddress (lit "x1_a_abcdef") (lit "old") 99
     = Ret (mkParsed false (lit "old") 99).
Proof.
  assert (H : lit "x1_a_abcdef" = [] \/ front (lit "x1_a_abcdef") <> "s"%byte
              \/ has_none underscore (lit "x1_a_abcdef"))
    by (right; left; discriminate).
  exact (conj H (early_rejection_keeps_outputs (lit "x1_a_abcdef") (lit "old") 99 H)).
Defined.

(** * Further properties of the sidechain objects *)

(** One read off the stream, in a goal about what a parse returned. *)
Ltac step_read :=
  lazymatch goal with
  | |- bind ?m _ = _ -> _ =>
      destruct m as [[? ?]| |]; cbn [bind]; [|discriminate..]
  end.

Section MoreObjectProperties.

Context {CMutableTransaction : Type}.
Variable tx_codec : codec CMutableTransaction.
Variables DB_SIDECHAIN_WT_OP DB_SIDECHAIN_WTPRIME_OP DB_SIDECHAIN_DEPOSIT_OP : byte.
Variable OP_RETURN : byte.
Variable SerializeHash : bytes -> uint256.

(** Parsing a serialisation, whatever follows it. *)
Lemma parse_payload (obj : SidechainObj CMutableTransaction) (extra : bytes) :
  distinct_tags DB_SIDECHAIN_WT_OP DB_SIDECHAIN_WTPRIME_OP DB_SIDECHAIN_DEPOSIT_OP ->
  well_tagged DB_SIDECHAIN_WT_OP DB_SIDECHAIN_WTPRIME_OP DB_SIDECHAIN_DEPOSIT_OP obj ->
  valid_fields tx_codec obj ->
  ParseSidechainObj tx_codec DB_SIDECHAIN_WT_OP DB_SIDECHAIN_WTPRIME_OP
                    DB_SIDECHAIN_DEPOSIT_OP (Serialize tx_codec obj ++ extra)
  = Ret (Some obj).
Proof.
  intros (H12 & H13 & H23) Ht Hv. unfold ParseSidechainObj. cbv zeta.
  destruct obj as [op|w|p|d]; cbn [well_tagged valid_fields Serialize] in *;
    [contradiction| | |].
  - destruct w as [op ns dest amt fee st h]. cbn [SidechainWT.sidechainop] in Ht. subst op.
    set (w := SidechainWT.mk _ _ _ _ _ _ _) in *.
    assert (Hcons : exists tl, SidechainWT.Serialize w ++ extra = DB_SIDECHAIN_WT_OP :: tl)
      by (eexists; reflexivity).
    destruct Hcons as (tl & Hcons).
    assert (Hsz : (size (SidechainWT.Serialize w ++ extra) =? 0) = false)
      by (rewrite Hcons, size_cons; pose proof (size_nonneg tl); apply eqb_false; lia).
    assert (Hhd : hd x00 (SidechainWT.Serialize w ++ extra) = DB_SIDECHAIN_WT_OP)
      by (rewrite Hcons; reflexivity).
    rewrite Hsz, Hhd, byte_eqb_refl.
    rewrite SidechainWT_reads_back by assumption. reflexivity.
  - destruct p as [op ns tx h st]. cbn [wtprime_sidechainop] in Ht. subst op.
    set (p := mkWTPrime _ _ _ _ _) in *.
    assert (Hcons : exists tl, SidechainWTPrime_Serialize _ tx_codec p ++ extra
                               = DB_SIDECHAIN_WTPRIME_OP :: tl)
      by (eexists; reflexivity).
    destruct Hcons as (tl & Hcons).
    assert (Hsz : (size (SidechainWTPrime_Serialize _ tx_codec p ++ extra) =? 0) = false)
      by (rewrite Hcons, size_cons; pose proof (size_nonneg tl); apply eqb_false; lia).
    assert (Hhd : hd x00 (SidechainWTPrime_Serialize _ tx_codec p ++ extra)
                  = DB_SIDECHAIN_WTPRIME_OP)
      by (rewrite Hcons; reflexivity).
    rewrite Hsz, Hhd.
    replace (byte_eqb DB_SIDECHAIN_WTPRIME_OP DB_SIDECHAIN_WT_OP) with false
      by (symmetry; apply byte_eqb_neq; congruence).
    rewrite byte_eqb_refl.
    rewrite SidechainWTPrime_reads_back by assumption. reflexivity.
  - destruct d as [op ns dest amt tx burn ntx h]. cbn [deposit_sidechainop] in Ht. subst op.
    set (d := mkDeposit _ _ _ _ _ _ _ _) in *.
    assert (Hcons : exists tl, SidechainDeposit_Serialize _ tx_codec d ++ extra
                               = DB_SIDECHAIN_DEPOSIT_OP :: tl)
      by (eexists; reflexivity).
    destruct Hcons as (tl & Hcons).
    assert (Hsz : (size (SidechainDeposit_Serialize _ tx_codec d ++ extra) =? 0) = false)
      by (rewrite Hcons, size_cons; pose proof (size_nonneg tl); apply eqb_false; lia).
    assert (Hhd : hd x00 (SidechainDeposit_Serialize _ tx_codec d ++ extra)
                  = DB_SIDECHAIN_DEPOSIT_OP)
      by (rewrite Hcons; reflexivity).
    rewrite Hsz, Hhd.
    replace (byte_eqb DB_SIDECHAIN_DEPOSIT_OP DB_SIDECHAIN_WT_OP) with false
      by (symmetry; apply byte_eqb_neq; congruence).
    replace (byte_eqb DB_SIDECHAIN_DEPOSIT_OP DB_SIDECHAIN_WTPRIME_OP) with false
      by (symmetry; apply byte_eqb_neq; congruence).
    rewrite byte_eqb_refl.
    rewrite SidechainDeposit_reads_back by assumption. reflexivity.
Qed.

(** The parser does not look at what follows the object: bytes appended to
    the payload of a script change nothing in what is parsed. *)
Theorem parse_ignores_trailing_bytes
    (obj : SidechainObj CMutableTransaction) (extra : bytes) :
  distinct_tags DB_SIDECHAIN_WT_OP DB_SIDECHAIN_WTPRIME_OP DB_SIDECHAIN_DEPOSIT_OP ->
  well_tagged DB_SIDECHAIN_WT_OP DB_SIDECHAIN_WTPRIME_OP DB_SIDECHAIN_DEPOSIT_OP obj ->
  valid_fields tx_codec obj ->
  (do s <- GetScript tx_codec DB_SIDECHAIN_WT_OP DB_SIDECHAIN_WTPRIME_OP
                     DB_SIDECHAIN_DEPOSIT_OP OP_RETURN obj in
   ParseSidechainObj tx_codec DB_SIDECHAIN_WT_OP DB_SIDECHAIN_WTPRIME_OP
                     DB_SIDECHAIN_DEPOSIT_OP (drop 5 s ++ extra))
  = Ret (Some obj).
Proof.
  intros Hd Ht Hv. rewrite GetScript_tagged by assumption.
  cbn [bind]. rewrite drop_frame. apply parse_payload; assumption.
Qed.

(** Two objects with the same script are the same object. *)
Theorem script_injective (obj obj' : SidechainObj CMutableTransaction) :
  distinct_tags DB_SIDECHAIN_WT_OP DB_SIDECHAIN_WTPRIME_OP DB_SIDECHAIN_DEPOSIT_OP ->
  well_tagged DB_SIDECHAIN_WT_OP DB_SIDECHAIN_WTPRIME_OP DB_SIDECHAIN_DEPOSIT_OP obj ->
  valid_fields tx_codec obj ->
  well_tagged DB_SIDECHAIN_WT_OP DB_SIDECHAIN_WTPRIME_OP DB_SIDECHAIN_DEPOSIT_OP obj' ->
  valid_fields tx_codec obj' ->
  GetScript tx_codec DB_SIDECHAIN_WT_OP DB_SIDECHAIN_WTPRIME_OP
            DB_SIDECHAIN_DEPOSIT_OP OP_RETURN obj
  = GetScript tx_codec DB_SIDECHAIN_WT_OP DB_SIDECHAIN_WTPRIME_OP
              DB_SIDECHAIN_DEPOSIT_OP OP_RETURN obj' ->
  obj = obj'.
Proof.
  intros Hd Ht Hv Ht' Hv' Heq.
  rewrite !GetScript_tagged in Heq by assumption.
  apply Ret_inj in Heq. injection Heq as Heq.
  pose proof (parse_payload obj [] Hd Ht Hv) as H1.
  pose proof (parse_payload obj' [] Hd Ht' Hv') as H2.
  rewrite Heq, H2 in H1. congruence.
Qed.

(** An object whose discriminant is none of the three gets a script of the
    five header bytes and nothing else, and the parser finds no object in
    what follows the header. *)
Theorem unknown_tag_script (obj : SidechainObj CMutableTransaction) :
  sidechainop obj <> DB_SIDECHAIN_WT_OP ->
  sidechainop obj <> DB_SIDECHAIN_WTPRIME_OP ->
  sidechainop obj <> DB_SIDECHAIN_DEPOSIT_OP ->
  GetScript tx_codec DB_SIDECHAIN_WT_OP DB_SIDECHAIN_WTPRIME_OP
            DB_SIDECHAIN_DEPOSIT_OP OP_RETURN obj
  = Ret [OP_RETURN; xac; xdc; xf6; x6f]
  /\ (do s <- GetScript tx_codec DB_SIDECHAIN_WT_OP DB_SIDECHAIN_WTPRIME_OP
                        DB_SIDECHAIN_DEPOSIT_OP OP_RETURN obj in
      ParseSidechainObj tx_codec DB_SIDECHAIN_WT_OP DB_SIDECHAIN_WTPRIME_OP
                        DB_SIDECHAIN_DEPOSIT_OP (drop 5 s))
     = Ret None.
Proof.
  intros H1 H2 H3.
  assert (Hs : GetScript tx_codec DB_SIDECHAIN_WT_OP DB_SIDECHAIN_WTPRIME_OP
                         DB_SIDECHAIN_DEPOSIT_OP OP_RETURN obj
               = Ret [OP_RETURN; xac; xdc; xf6; x6f]).
  { unfold GetScript. apply byte_eqb_neq in H1, H2, H3. rewrite H1, H2, H3.
    cbn [bind]. cbv zeta. rewrite (frame_bytes OP_RETURN []). reflexivity. }
  split; [exact Hs|]. rewrite Hs. reflexivity.
Qed.

(** What [GetHash] digests is what [GetScript] puts after the header. *)
Theorem hash_of_script_payload (obj : SidechainObj CMutableTransaction) :
  distinct_tags DB_SIDECHAIN_WT_OP DB_SIDECHAIN_WTPRIME_OP DB_SIDECHAIN_DEPOSIT_OP ->
  well_tagged DB_SIDECHAIN_WT_OP DB_SIDECHAIN_WTPRIME_OP DB_SIDECHAIN_DEPOSIT_OP obj ->
  exists s,
    GetScript tx_codec DB_SIDECHAIN_WT_OP DB_SIDECHAIN_WTPRIME_OP
              DB_SIDECHAIN_DEPOSIT_OP OP_RETURN obj = Ret s
    /\ GetHash tx_codec DB_SIDECHAIN_WT_OP DB_SIDECHAIN_WTPRIME_OP
               DB_SIDECHAIN_DEPOSIT_OP SerializeHash obj
       = Ret (SerializeHash (drop 5 s)).
Proof.
  intros Hd Ht. eexists. split; [apply GetScript_tagged; assumption|].
  rewrite drop_frame. destruct Hd as (H12 & H13 & H23). unfold GetHash.
  destruct obj as [op|w|p|d]; cbn [well_tagged] in Ht; [contradiction| | |];
    cbn [sidechainop]; rewrite Ht.
  - rewrite byte_eqb_refl. reflexivity.
  - replace (byte_eqb DB_SIDECHAIN_WTPRIME_OP DB_SIDECHAIN_WT_OP) with false
      by (symmetry; apply byte_eqb_neq; congruence).
    rewrite byte_eqb_refl. reflexivity.
  - replace (byte_eqb DB_SIDECHAIN_DEPOSIT_OP DB_SIDECHAIN_WT_OP) with false
      by (symmetry; apply byte_eqb_neq; congruence).
    replace (byte_eqb DB_SIDECHAIN_DEPOSIT_OP DB_SIDECHAIN_WTPRIME_OP) with false
      by (symmetry; apply byte_eqb_neq; congruence).
    rewrite byte_eqb_refl. reflexivity.
Qed.

(** The discriminant of an object read off a stream is the first byte of
    the stream. *)
Lemma SidechainWT_Unserialize_op (c : byte) (ds rest : bytes) (w : SidechainWT.t) :
  SidechainWT.Unserialize (c :: ds) = Ret (w, rest) -> SidechainWT.sidechainop w = c.
Proof.
  unfold SidechainWT.Unserialize. cbn [unser char_codec bind].
  repeat step_read. intros [=<- _]. reflexivity.
Qed.

Lemma SidechainWTPrime_Unserialize_op (c : byte) (ds rest : bytes)
    (p : SidechainWTPrime CMutableTransaction) :
  SidechainWTPrime_Unserialize _ tx_codec (c :: ds) = Ret (p, rest) ->
  wtprime_sidechainop _ p = c.
Proof.
  unfold SidechainWTPrime_Unserialize. cbn [unser char_codec bind].
  repeat step_read. intros [=<- _]. reflexivity.
Qed.

Lemma SidechainDeposit_Unserialize_op (c : byte) (ds rest : bytes)
    (d : SidechainDeposit CMutableTransaction) :
  SidechainDeposit_Unserialize _ tx_codec (c :: ds) = Ret (d, rest) ->
  deposit_sidechainop _ d = c.
Proof.
  unfold SidechainDeposit_Unserialize. cbn [unser char_codec bind].
  repeat step_read. intros [=<- _]. reflexivity.
Qed.

(** Whatever the parser returns carries, as its discriminant, the first
    byte of the vector, which is the constant of its own variant: a parsed
    object is never one whose discriminant and type disagree. *)
Theorem parsed_object_well_tagged
    (vch : bytes) (obj : SidechainObj CMutableTransaction) :
  ParseSidechainObj tx_codec DB_SIDECHAIN_WT_OP DB_SIDECHAIN_WTPRIME_OP
                    DB_SIDECHAIN_DEPOSIT_OP vch = Ret (Some obj) ->
  well_tagged DB_SIDECHAIN_WT_OP DB_SIDECHAIN_WTPRIME_OP DB_SIDECHAIN_DEPOSIT_OP obj
  /\ head vch = Some (sidechainop obj).
Proof.
  unfold ParseSidechainObj.
  destruct vch as [|c rest]; [discriminate|].
  rewrite size_cons. pose proof (size_nonneg rest).
  rewrite eqb_false by lia. cbv zeta. cbn [hd head].
  destruct (byte_eqb c DB_SIDECHAIN_WT_OP) eqn:E1.
  { apply byte_eqb_eq in E1.
    destruct (SidechainWT.Unserialize (c :: rest)) as [[w l]| |] eqn:Hu;
      cbn [bind]; [|discriminate..].
    apply SidechainWT_Unserialize_op in Hu. intros [=<-].
    cbn [well_tagged sidechainop]. rewrite Hu. auto. }
  destruct (byte_eqb c DB_SIDECHAIN_WTPRIME_OP) eqn:E2.
  { apply byte_eqb_eq in E2.
    destruct (SidechainWTPrime_Unserialize _ tx_codec (c :: rest)) as [[p l]| |] eqn:Hu;
      cbn [bind]; [|discriminate..].
    apply SidechainWTPrime_Unserialize_op in Hu. intros [=<-].
    cbn [well_tagged sidechainop]. rewrite Hu. auto. }
  destruct (byte_eqb c DB_SIDECHAIN_DEPOSIT_OP) eqn:E3; [|discriminate].
  apply byte_eqb_eq in E3.
  destruct (SidechainDeposit_Unserialize _ tx_codec (c :: rest)) as [[d l]| |] eqn:Hu;
    cbn [bind]; [|discriminate..].
  apply SidechainDeposit_Unserialize_op in Hu. intros [=<-].
  cbn [well_tagged sidechainop]. rewrite Hu. auto.
Qed.

End MoreObjectProperties.

Lemma parse_ignores_trailing_bytes_witness :
  distinct_tags "W"%byte "P"%byte "D"%byte
  /\ well_tagged "W"%byte "P"%byte "D"%byte (Deposit sample_deposit)
  /\ valid_fields string_codec (Deposit sample_deposit)
  /\ (do s <- GetScript string_codec "W"%byte "P"%byte "D"%byte x6a
                        (Deposit sample_deposit) in
      ParseSidechainObj string_codec "W"%byte "P"%byte "D"%byte
                        (drop 5 s ++ [x00; x01]))
     = Ret (Some (Deposit sample_deposit)).
Proof.
  assert (H1 : distinct_tags "W"%byte "P"%byte "D"%byte)
    by (repeat split; discriminate).
  assert (H2 : well_tagged "W"%byte "P"%byte "D"%byte (Deposit sample_deposit))
    by reflexivity.
  assert (H3 : valid_fields string_codec (Deposit sample_deposit)).
  { cbn [valid_fields]. unfold SidechainDeposit_valid, sample_deposit.
    cbn [strDest amtUserPayout dtx nBurnIndex nTx hashMainchainBlock].
    split; [vm_compute; reflexivity|]. split; [lia|].
    split; [apply string_codec_reads_back; vm_compute; reflexivity|].
    repeat split; lia. }
  exact (conj H1 (conj H2 (conj H3
    (parse_ignores_trailing_bytes string_codec "W"%byte "P"%byte "D"%byte x6a
       (Deposit sample_deposit) [x00; x01] H1 H2 H3)))).
Defined.

Lemma script_injective_witness :
  distinct_tags "W"%byte "P"%byte "D"%byte
  /\ well_tagged "W"%byte "P"%byte "D"%byte (Deposit sample_deposit)
  /\ valid_fields string_codec (Deposit sample_deposit)
  /\ GetScript string_codec "W"%byte "P"%byte "D"%byte x6a (Deposit sample_deposit)
     = GetScript string_codec "W"%byte "P"%byte "D"%byte x6a (Deposit sample_deposit)
  /\ Deposit sample_deposit = Deposit sample_deposit.
Proof.
  assert (H1 : distinct_tags "W"%byte "P"%byte "D"%byte)
    by (repeat split; discriminate).
  assert (H2 : well_tagged "W"%byte "P"%byte "D"%byte (Deposit sample_deposit))
    by reflexivity.
  assert (H3 : valid_fields string_codec (Deposit sample_deposit)).
  { cbn [valid_fields]. unfold SidechainDeposit_valid, sample_deposit.
    cbn [strDest amtUserPayout dtx nBurnIndex nTx hashMainchainBlock].
    split; [vm_compute; reflexivity|]. split; [lia|].
    split; [apply string_codec_reads_back; vm_compute; reflexivity|].
    repeat split; lia. }
  assert (H4 : GetScript string_codec "W"%byte "P"%byte "D"%byte x6a
                         (Deposit sample_deposit)
               = GetScript string_codec "W"%byte "P"%byte "D"%byte x6a
                           (Deposit sample_deposit)) by reflexivity.
  exact (conj H1 (conj H2 (conj H3 (conj H4
    (script_injective string_codec "W"%byte "P"%byte "D"%byte x6a
       (Deposit sample_deposit) (Deposit sample_deposit) H1 H2 H3 H2 H3 H4))))).
Defined.

Lemma unknown_tag_script_witness :
  sidechainop (Base (CMutableTransaction := list byte) "x"%byte) <> "W"%byte
  /\ sidechainop (Base (CMutableTransaction := list byte) "x"%byte) <> "P"%byte
  /\ sidechainop (Base (CMutableTransaction := list byte) "x"%byte) <> "D"%byte
  /\ GetScript string_codec "W"%byte "P"%byte "D"%byte x6a (Base "x"%byte)
     = Ret [x6a; xac; xdc; xf6; x6f]
  /\ (do s <- GetScript string_codec "W"%byte "P"%byte "D"%byte x6a (Base "x"%byte) in
      ParseSidechainObj string_codec "W"%byte "P"%byte "D"%byte (drop 5 s))
     = Ret None.
Proof.
  assert (H1 : sidechainop (Base (CMutableTransaction := list byte) "x"%byte) <> "W"%byte)
    by discriminate.
  assert (H2 : sidechainop (Base (CMutableTransaction := list byte) "x"%byte) <> "P"%byte)
    by discriminate.
  assert (H3 : sidechainop (Base (CMutableTransaction := list byte) "x"%byte) <> "D"%byte)
    by discriminate.
  exact (conj H1 (conj H2 (conj H3
    (unknown_tag_script string_codec "W"%byte "P"%byte "D"%byte x6a
       (Base "x"%byte) H1 H2 H3)))).
Defined.

Lemma hash_of_script_payload_witness :
  distinct_tags "W"%byte "P"%byte "D"%byte
  /\ well_tagged "W"%byte "P"%byte "D"%byte (Deposit sample_deposit)
  /\ exists s,
       GetScript string_codec "W"%byte "P"%byte "D"%byte x6a (Deposit sample_deposit)
       = Ret s
       /\ GetHash string_codec "W"%byte "P"%byte "D"%byte
                  (fun v => le_value (take 32 v)) (Deposit sample_deposit)
          = Ret (le_value (take 32 (drop 5 s))).
Proof.
  assert (H1 : distinct_tags "W"%byte "P"%byte "D"%byte)
    by (repeat split; discriminate).
  assert (H2 : well_tagged "W"%byte "P"%byte "D"%byte (Deposit sample_deposit))
    by reflexivity.
  exact (conj H1 (conj H2
    (hash_of_script_payload string_codec "W"%byte "P"%byte "D"%byte x6a
       (fun v => le_value (take 32 v)) (Deposit sample_deposit) H1 H2))).
Defined.

Lemma parsed_object_well_tagged_witness :
  ParseSidechainObj string_codec "W"%byte "P"%byte "D"%byte
                    (Serialize string_codec (Deposit sample_deposit))
  = Ret (Some (Deposit sample_deposit))
  /\ well_tagged "W"%byte "P"%byte "D"%byte (Deposit sample_deposit)
  /\ head (Serialize string_codec (Deposit sample_deposit))
     = Some (sidechainop (Deposit sample_deposit)).
Proof.
  assert (H : ParseSidechainObj string_codec "W"%byte "P"%byte "D"%byte
                (Serialize string_codec (Deposit sample_deposit))
              = Ret (Some (Deposit sample_deposit))) by (vm_compute; reflexivity).
  exact (conj H
    (parsed_object_well_tagged string_codec "W"%byte "P"%byte "D"%byte
       (Serialize string_codec (Deposit sample_deposit)) (Deposit sample_deposit) H)).
Defined.

(** * Ordering and selecting *)

Lemma key_compare_strict_weak {A} (key : A -> Z) :
  strict_weak_ordering (fun a b => key a >? key b).
Proof.
  split; [|split].
  - intros a. apply gtb_false. lia.
  - intros a b c H1 H2. apply Z.gtb_lt in H1, H2. apply Z.gtb_lt. lia.
  - intros a b c H1 H2 H3 H4. rewrite Z.gtb_ltb in H1, H2, H3, H4.
    apply Z.ltb_ge in H1, H2, H3, H4. split; apply gtb_false; lia.
Qed.

(** The comparison [SortWTByFee] hands to [std::sort] is a strict weak
    ordering, as [std::sort] requires. *)
Theorem CompareWTMainchainFee_strict_weak :
  strict_weak_ordering CompareWTMainchainFee.
Proof. apply (key_compare_strict_weak SidechainWT.mainchainFee). Qed.

(** So is the comparison [SortWTPrimeByHeight] hands to it. *)
Theorem CompareWTPrimeHeight_strict_weak (CMutableTransaction : Type) :
  strict_weak_ordering (@CompareWTPrimeHeight CMutableTransaction).
Proof. apply (key_compare_strict_weak (nHeight CMutableTransaction)). Qed.

Lemma sorted_by_nil {A} (comp : A -> A -> bool) : sorted_by comp [].
Proof. intros i j a b _ H. discriminate H. Qed.

Lemma sorted_by_cons {A} (comp : A -> A -> bool) (x : A) (l : list A) :
  sorted_by comp (x :: l)
  <-> Forall (fun b => comp b x = false) l /\ sorted_by comp l.
Proof.
  split.
  - intros H. split.
    + apply Forall_forall. intros b Hb.
      apply list_elem_of_lookup in Hb as [j Hj].
      apply (H 0%nat (S j) x b); [lia | reflexivity | exact Hj].
    + intros i j a b Hij Ha Hb. apply (H (S i) (S j) a b); [lia | exact Ha | exact Hb].
  - intros [Hx Hl] i j a b Hij Ha Hb.
    destruct j as [|j]; [lia|]. cbn in Hb.
    destruct i as [|i].
    + injection Ha as <-. rewrite Forall_forall in Hx. apply Hx.
      apply list_elem_of_lookup. eauto.
    + cbn in Ha. apply (Hl i j a b); [lia | exact Ha | exact Hb].
Qed.

Lemma sorted_by_sublist {A} (comp : A -> A -> bool) (l k : list A) :
  sublist l k -> sorted_by comp k -> sorted_by comp l.
Proof.
  induction 1 as [|x l k Hs IH|x l k Hs IH]; intros Hk.
  - apply sorted_by_nil.
  - apply sorted_by_cons in Hk as [Hx Hk]. apply sorted_by_cons. split; [|auto].
    rewrite Forall_forall in Hx |- *. intros b Hb. apply Hx.
    eapply elem_of_sublist; eassumption.
  - apply sorted_by_cons in Hk as [_ Hk]. auto.
Qed.

(** Two arrangements of the same numbers in descending order are the same
    list. *)
Lemma descending_unique (l1 l2 : list Z) :
  Permutation l1 l2 ->
  sorted_by Z.gtb l1 -> sorted_by Z.gtb l2 -> l1 = l2.
Proof.
  revert l2. induction l1 as [|x l1 IH]; intros l2 Hp H1 H2.
  - apply Permutation_nil in Hp. congruence.
  - destruct l2 as [|y l2]; [apply Permutation_sym, Permutation_nil in Hp; discriminate|].
    apply sorted_by_cons in H1 as [Hx H1]. apply sorted_by_cons in H2 as [Hy H2].
    assert (Hxy : x = y).
    { assert (Hin1 : In x (y :: l2)) by (eapply Permutation_in; [exact Hp | left; reflexivity]).
      assert (Hin2 : In y (x :: l1))
        by (eapply Permutation_in; [apply Permutation_sym, Hp | left; reflexivity]).
      rewrite Forall_forall in Hx, Hy.
      destruct Hin1 as [->|Hin1]; [reflexivity|].
      destruct Hin2 as [->|Hin2]; [reflexivity|].
      apply list_elem_of_In in Hin1, Hin2.
      specialize (Hy x Hin1). specialize (Hx y Hin2).
      rewrite Z.gtb_ltb in Hx, Hy. apply Z.ltb_ge in Hx, Hy. lia. }
    subst y. f_equal. apply IH; [|assumption..].
    eapply Permutation_cons_inv. exact Hp.
Qed.

Lemma sorted_by_map {A} (key : A -> Z) (l : list A) :
  sorted_by (fun a b => key a >? key b) l -> sorted_by Z.gtb (map key l).
Proof.
  intros H i j a b Hij Ha Hb.
  rewrite list_lookup_fmap in Ha, Hb.
  destruct (l !! i) as [a'|] eqn:Ea; [|discriminate].
  destruct (l !! j) as [b'|] eqn:Eb; [|discriminate].
  injection Ha as <-. injection Hb as <-. apply (H i j a' b' Hij Ea Eb).
Qed.

Lemma std_sort_keys_unique {A} (key : A -> Z) (v v1 v2 : list A) :
  std_sort (fun a b => key a >? key b) v v1 ->
  std_sort (fun a b => key a >? key b) v v2 ->
  map key v1 = map key v2.
Proof.
  intros [Hp1 Hs1] [Hp2 Hs2]. apply descending_unique.
  - apply Permutation_map. etransitivity; [apply Permutation_sym, Hp1 | exact Hp2].
  - apply sorted_by_map, Hs1.
  - apply sorted_by_map, Hs2.
Qed.

(** However [std::sort] arranges withdrawals of equal fee, the fees of the
    sorted vector are the same list: two vectors that [SortWTByFee] may
    leave for one input differ at most in the order of withdrawals of
    equal fee. *)
Theorem SortWTByFee_fees_determined (vWT v1 v2 : list SidechainWT.t) :
  SortWTByFee vWT v1 -> SortWTByFee vWT v2 ->
  map SidechainWT.mainchainFee v1 = map SidechainWT.mainchainFee v2.
Proof.
  intros H1 H2.
  exact (std_sort_keys_unique SidechainWT.mainchainFee vWT v1 v2 H1 H2).
Qed.

(** The same for the heights of the bundles [SortWTPrimeByHeight] sorts. *)
Theorem SortWTPrimeByHeight_heights_determined (CMutableTransaction : Type)
    (v v1 v2 : list (SidechainWTPrime CMutableTransaction)) :
  SortWTPrimeByHeight v v1 -> SortWTPrimeByHeight v v2 ->
  map (nHeight CMutableTransaction) v1 = map (nHeight CMutableTransaction) v2.
Proof.
  intros H1 H2.
  exact (std_sort_keys_unique (nHeight CMutableTransaction) v v1 v2 H1 H2).
Qed.

Lemma filter_permutation {A} (f : A -> bool) (l l' : list A) :
  Permutation l l' -> Permutation (List.filter f l) (List.filter f l').
Proof.
  induction 1 as [|x l l' Hp IH|x y l|l l' l'' H1 IH1 H2 IH2]; cbn [List.filter].
  - constructor.
  - destruct (f x); [constructor|]; exact IH.
  - destruct (f y), (f x); try reflexivity. apply perm_swap.
  - etransitivity; eassumption.
Qed.

Section MoreSelectProperties.

Variable WT_UNSPENT : byte.
Variable moved_from : SidechainWT.t -> SidechainWT.t.

(** Selecting the unspent withdrawals of a vector sorted by fee leaves a
    vector sorted by fee: it is what sorting the selection of the unsorted
    vector may give. *)
Theorem select_after_sort (vWT vWT' : list SidechainWT.t) :
  SortWTByFee vWT vWT' ->
  SortWTByFee (SelectUnspentWT WT_UNSPENT moved_from vWT)
              (SelectUnspentWT WT_UNSPENT moved_from vWT').
Proof.
  intros [Hp Hs]. rewrite !SelectUnspentWT_filter. split.
  - apply filter_permutation, Hp.
  - eapply sorted_by_sublist; [apply filter_sublist_of | exact Hs].
Qed.

(** Selecting twice selects nothing more than selecting once. *)
Theorem select_idempotent (vWT : list SidechainWT.t) :
  SelectUnspentWT WT_UNSPENT moved_from
    (SelectUnspentWT WT_UNSPENT moved_from vWT)
  = SelectUnspentWT WT_UNSPENT moved_from vWT.
Proof.
  rewrite !SelectUnspentWT_filter.
  induction vWT as [|x l IH]; [reflexivity|].
  cbn [List.filter]. destruct (negb (spent_or_pending WT_UNSPENT x)) eqn:E.
  - cbn [List.filter]. rewrite E, IH. reflexivity.
  - exact IH.
Qed.

End MoreSelectProperties.

Lemma SortWTByFee_fees_determined_witness :
  SortWTByFee [sample_wt "u" 5; sample_wt "s" 5; sample_wt "u" 3]
              [sample_wt "u" 5; sample_wt "s" 5; sample_wt "u" 3]
  /\ SortWTByFee [sample_wt "u" 5; sample_wt "s" 5; sample_wt "u" 3]
                 [sample_wt "s" 5; sample_wt "u" 5; sample_wt "u" 3]
  /\ [sample_wt "u" 5; sample_wt "s" 5; sample_wt "u" 3]
     <> [sample_wt "s" 5; sample_wt "u" 5; sample_wt "u" 3]
  /\ map SidechainWT.mainchainFee [sample_wt "u" 5; sample_wt "s" 5; sample_wt "u" 3]
     = map SidechainWT.mainchainFee [sample_wt "s" 5; sample_wt "u" 5; sample_wt "u" 3].
Proof.
  assert (H1 : SortWTByFee [sample_wt "u" 5; sample_wt "s" 5; sample_wt "u" 3]
                           [sample_wt "u" 5; sample_wt "s" 5; sample_wt "u" 3]).
  { split.
    - reflexivity.
    - repeat (apply sorted_by_cons; split; [repeat constructor|]).
      apply sorted_by_nil. }
  assert (H2 : SortWTByFee [sample_wt "u" 5; sample_wt "s" 5; sample_wt "u" 3]
                           [sample_wt "s" 5; sample_wt "u" 5; sample_wt "u" 3]).
  { split.
    - apply perm_swap.
    - repeat (apply sorted_by_cons; split; [repeat constructor|]).
      apply sorted_by_nil. }
  assert (H3 : [sample_wt "u" 5; sample_wt "s" 5; sample_wt "u" 3]
               <> [sample_wt "s" 5; sample_wt "u" 5; sample_wt "u" 3])
    by discriminate.
  exact (conj H1 (conj H2 (conj H3 (SortWTByFee_fees_determined _ _ _ H1 H2)))).
Defined.

Lemma SortWTPrimeByHeight_heights_determined_witness :
  SortWTPrimeByHeight
    [sample_wtprime 10; mkWTPrime "P"%byte x01 (lit "other") 20 "c"%byte; sample_wtprime 20]
    [mkWTPrime "P"%byte x01 (lit "other") 20 "c"%byte; sample_wtprime 20; sample_wtprime 10]
  /\ SortWTPrimeByHeight
       [sample_wtprime 10; mkWTPrime "P"%byte x01 (lit "other") 20 "c"%byte; sample_wtprime 20]
       [sample_wtprime 20; mkWTPrime "P"%byte x01 (lit "other") 20 "c"%byte; sample_wtprime 10]
  /\ [mkWTPrime "P"%byte x01 (lit "other") 20 "c"%byte; sample_wtprime 20; sample_wtprime 10]
     <> [sample_wtprime 20; mkWTPrime "P"%byte x01 (lit "other") 20 "c"%byte; sample_wtprime 10]
  /\ map (nHeight (list byte))
       [mkWTPrime "P"%byte x01 (lit "other") 20 "c"%byte; sample_wtprime 20; sample_wtprime 10]
     = map (nHeight (list byte))
         [sample_wtprime 20; mkWTPrime "P"%byte x01 (lit "other") 20 "c"%byte; sample_wtprime 10].
Proof.
  assert (H1 : SortWTPrimeByHeight
    [sample_wtprime 10; mkWTPrime "P"%byte x01 (lit "other") 20 "c"%byte; sample_wtprime 20]
    [mkWTPrime "P"%byte x01 (lit "other") 20 "c"%byte; sample_wtprime 20; sample_wtprime 10]).
  { split.
    - apply Permutation_trans
        with (l' := [mkWTPrime "P"%byte x01 (lit "other") 20 "c"%byte; sample_wtprime 10;
                     sample_wtprime 20]).
      + apply perm_swap.
      + apply perm_skip, perm_swap.
    - repeat (apply sorted_by_cons; split; [repeat constructor|]).
      apply sorted_by_nil. }
  assert (H2 : SortWTPrimeByHeight
    [sample_wtprime 10; mkWTPrime "P"%byte x01 (lit "other") 20 "c"%byte; sample_wtprime 20]
    [sample_wtprime 20; mkWTPrime "P"%byte x01 (lit "other") 20 "c"%byte; sample_wtprime 10]).
  { split.
    - apply Permutation_trans
        with (l' := [sample_wtprime 20; mkWTPrime "P"%byte x01 (lit "other") 20 "c"%byte;
                     sample_wtprime 10]).
      + apply Permutation_rev.
      + reflexivity.
    - repeat (apply sorted_by_cons; split; [repeat constructor|]).
      apply sorted_by_nil. }
  assert (H3 : [mkWTPrime "P"%byte x01 (lit "other") 20 "c"%byte; sample_wtprime 20;
                sample_wtprime 10]
     <> [sample_wtprime 20; mkWTPrime "P"%byte x01 (lit "other") 20 "c"%byte;
         sample_wtprime 10]) by discriminate.
  exact (conj H1 (conj H2 (conj H3
    (SortWTPrimeByHeight_heights_determined _ _ _ _ H1 H2)))).
Defined.

Lemma select_after_sort_witness :
  SortWTByFee [sample_wt "u" 5; sample_wt "s" 1; sample_wt "u" 3]
              [sample_wt "u" 5; sample_wt "u" 3; sample_wt "s" 1]
  /\ SortWTByFee
       (SelectUnspentWT "u" (fun w => w)
          [sample_wt "u" 5; sample_wt "s" 1; sample_wt "u" 3])
       (SelectUnspentWT "u" (fun w => w)
          [sample_wt "u" 5; sample_wt "u" 3; sample_wt "s" 1]).
Proof.
  assert (H : SortWTByFee [sample_wt "u" 5; sample_wt "s" 1; sample_wt "u" 3]
                          [sample_wt "u" 5; sample_wt "u" 3; sample_wt "s" 1]).
  { split.
    - apply perm_skip, perm_swap.
    - repeat (apply sorted_by_cons; split; [repeat constructor|]).
      apply sorted_by_nil. }
  exact (conj H (select_after_sort "u" (fun w => w) _ _ H)).
Defined.

(** * Status labels *)

Section WTStatusProperties.

Variables WT_UNSPENT WT_IN_WTPRIME WT_SPENT : byte.

(** With three different status constants, two withdrawals have the same
    label exactly when they have the same status or both have a status
    that is none of the three; the label is [Unknown] exactly in the
    latter case. *)
Theorem SidechainWT_status_label (a b : SidechainWT.t) :
  WT_UNSPENT <> WT_IN_WTPRIME -> WT_UNSPENT <> WT_SPENT ->
  WT_IN_WTPRIME <> WT_SPENT ->
  let known s := s = WT_UNSPENT \/ s = WT_IN_WTPRIME \/ s = WT_SPENT in
  (SidechainWT_GetStatusStr WT_UNSPENT WT_IN_WTPRIME WT_SPENT a = lit "Unknown"
   <-> ~ known (SidechainWT.status a))
  /\ (SidechainWT_GetStatusStr WT_UNSPENT WT_IN_WTPRIME WT_SPENT a
      = SidechainWT_GetStatusStr WT_UNSPENT WT_IN_WTPRIME WT_SPENT b
      <-> SidechainWT.status a = SidechainWT.status b
          \/ (~ known (SidechainWT.status a) /\ ~ known (SidechainWT.status b))).
Proof.
  intros H12 H13 H23 known. unfold SidechainWT_GetStatusStr, known.
  destruct (byte_eqb (SidechainWT.status a) WT_UNSPENT) eqn:A1;
    [apply byte_eqb_eq in A1|apply byte_eqb_neq in A1;
     destruct (byte_eqb (SidechainWT.status a) WT_IN_WTPRIME) eqn:A2;
       [apply byte_eqb_eq in A2|apply byte_eqb_neq in A2;
        destruct (byte_eqb (SidechainWT.status a) WT_SPENT) eqn:A3;
          [apply byte_eqb_eq in A3|apply byte_eqb_neq in A3]]];
  (destruct (byte_eqb (SidechainWT.status b) WT_UNSPENT) eqn:B1;
    [apply byte_eqb_eq in B1|apply byte_eqb_neq in B1;
     destruct (byte_eqb (SidechainWT.status b) WT_IN_WTPRIME) eqn:B2;
       [apply byte_eqb_eq in B2|apply byte_eqb_neq in B2;
        destruct (byte_eqb (SidechainWT.status b) WT_SPENT) eqn:B3;
          [apply byte_eqb_eq in B3|apply byte_eqb_neq in B3]]]);
  (split; split; intros H; try discriminate H; try reflexivity;
   try congruence; try tauto; try (left; congruence);
   try (destruct H as [H|[H1 H2]]; [congruence | tauto])).
Qed.

End WTStatusProperties.

Section WTPrimeStatusProperties.

Variables WTPRIME_CREATED WTPRIME_FAILED WTPRIME_SPENT : byte.
Context {CMutableTransaction : Type}.

(** The same for the labels of bundles. *)
Theorem SidechainWTPrime_status_label
    (a b : SidechainWTPrime CMutableTransaction) :
  WTPRIME_CREATED <> WTPRIME_FAILED -> WTPRIME_CREATED <> WTPRIME_SPENT ->
  WTPRIME_FAILED <> WTPRIME_SPENT ->
  let known s := s = WTPRIME_CREATED \/ s = WTPRIME_FAILED \/ s = WTPRIME_SPENT in
  (SidechainWTPrime_GetStatusStr WTPRIME_CREATED WTPRIME_FAILED WTPRIME_SPENT a
   = lit "Unknown"
   <-> ~ known (wtprime_status _ a))
  /\ (SidechainWTPrime_GetStatusStr WTPRIME_CREATED WTPRIME_FAILED WTPRIME_SPENT a
      = SidechainWTPrime_GetStatusStr WTPRIME_CREATED WTPRIME_FAILED WTPRIME_SPENT b
      <-> wtprime_status _ a = wtprime_status _ b
          \/ (~ known (wtprime_status _ a) /\ ~ known (wtprime_status _ b))).
Proof.
  intros H12 H13 H23 known. unfold SidechainWTPrime_GetStatusStr, known.
  destruct (byte_eqb (wtprime_status _ a) WTPRIME_CREATED) eqn:A1;
    [apply byte_eqb_eq in A1|apply byte_eqb_neq in A1;
     destruct (byte_eqb (wtprime_status _ a) WTPRIME_FAILED) eqn:A2;
       [apply byte_eqb_eq in A2|apply byte_eqb_neq in A2;
        destruct (byte_eqb (wtprime_status _ a) WTPRIME_SPENT) eqn:A3;
          [apply byte_eqb_eq in A3|apply byte_eqb_neq in A3]]];
  (destruct (byte_eqb (wtprime_status _ b) WTPRIME_CREATED) eqn:B1;
    [apply byte_eqb_eq in B1|apply byte_eqb_neq in B1;
     destruct (byte_eqb (wtprime_status _ b) WTPRIME_FAILED) eqn:B2;
       [apply byte_eqb_eq in B2|apply byte_eqb_neq in B2;
        destruct (byte_eqb (wtprime_status _ b) WTPRIME_SPENT) eqn:B3;
          [apply byte_eqb_eq in B3|apply byte_eqb_neq in B3]]]);
  (split; split; intros H; try discriminate H; try reflexivity;
   try congruence; try tauto; try (left; congruence);
   try (destruct H as [H|[H1 H2]]; [congruence | tauto])).
Qed.

End WTPrimeStatusProperties.

Lemma SidechainWT_status_label_witness :
  "u"%byte <> "p"%byte /\ "u"%byte <> "s"%byte /\ "p"%byte <> "s"%byte
  /\ (SidechainWT_GetStatusStr "u" "p" "s" (sample_wt "p" 1) = lit "Unknown"
      <-> ~ (SidechainWT.status (sample_wt "p" 1) = "u"%byte
             \/ SidechainWT.status (sample_wt "p" 1) = "p"%byte
             \/ SidechainWT.status (sample_wt "p" 1) = "s"%byte)).
Proof.
  assert (H1 : "u"%byte <> "p"%byte) by discriminate.
  assert (H2 : "u"%byte <> "s"%byte) by discriminate.
  assert (H3 : "p"%byte <> "s"%byte) by discriminate.
  exact (conj H1 (conj H2 (conj H3
    (proj1 (SidechainWT_status_label "u" "p" "s" (sample_wt "p" 1) (sample_wt "x" 2)
              H1 H2 H3))))).
Defined.

Lemma SidechainWTPrime_status_label_witness :
  "c"%byte <> "f"%byte /\ "c"%byte <> "s"%byte /\ "f"%byte <> "s"%byte
  /\ (SidechainWTPrime_GetStatusStr "c" "f" "s" (sample_wtprime 7) = lit "Unknown"
      <-> ~ (wtprime_status _ (sample_wtprime 7) = "c"%byte
             \/ wtprime_status _ (sample_wtprime 7) = "f"%byte
             \/ wtprime_status _ (sample_wtprime 7) = "s"%byte)).
Proof.
  assert (H1 : "c"%byte <> "f"%byte) by discriminate.
  assert (H2 : "c"%byte <> "s"%byte) by discriminate.
  assert (H3 : "f"%byte <> "s"%byte) by discriminate.
  exact (conj H1 (conj H2 (conj H3
    (proj1 (SidechainWTPrime_status_label "c" "f" "s" (sample_wtprime 7)
              (sample_wtprime 8) H1 H2 H3))))).
Defined.
